(** * Gesture-driven overlay transform of the AR tracing app

    A shallow embedding of the application script (camera + canvas overlay):
    the overlay transform store, the touch gesture handlers, the zoom / lock /
    reset controls, the viewport sizer and the image ingestion path.

    JavaScript numbers are modelled as _ideal_ IEEE numbers: a real number,
    one of the two infinities, or NaN.  Rounding error, overflow and the sign
    of zero are not modelled; division by zero, infinities and NaN are, with
    the results JavaScript gives them. *)

From Stdlib Require Import Reals Lra Lia ZArith List Bool.
Import ListNotations.

Open Scope R_scope.

(** ** JavaScript numbers *)

Inductive number : Type :=
| Fin (r : R)
| PosInf
| NegInf
| NaN.

Inductive sign : Type := Neg | Zero | Pos.

Definition sgn (r : R) : sign :=
  if Rlt_dec 0 r then Pos else if Rlt_dec r 0 then Neg else Zero.

Definition inf_of (s : sign) : number :=
  match s with Pos => PosInf | Neg => NegInf | Zero => NaN end.

Definition flip (s : sign) : sign :=
  match s with Pos => Neg | Neg => Pos | Zero => Zero end.

(** Unary minus. *)
Definition neg (a : number) : number :=
  match a with
  | Fin r => Fin (- r)
  | PosInf => NegInf
  | NegInf => PosInf
  | NaN => NaN
  end.

(** [a + b] *)
Definition add (a b : number) : number :=
  match a, b with
  | NaN, _ | _, NaN => NaN
  | Fin r, Fin s => Fin (r + s)
  | PosInf, NegInf | NegInf, PosInf => NaN
  | PosInf, _ | _, PosInf => PosInf
  | NegInf, _ | _, NegInf => NegInf
  end.

(** [a - b] *)
Definition sub (a b : number) : number := add a (neg b).

(** [a * b] *)
Definition mul (a b : number) : number :=
  match a, b with
  | NaN, _ | _, NaN => NaN
  | Fin r, Fin s => Fin (r * s)
  | Fin r, PosInf | PosInf, Fin r => inf_of (sgn r)
  | Fin r, NegInf | NegInf, Fin r => inf_of (flip (sgn r))
  | PosInf, PosInf | NegInf, NegInf => PosInf
  | PosInf, NegInf | NegInf, PosInf => NegInf
  end.

(** [a / b]: a finite number divided by zero is an infinity of the sign of
    the dividend, and [0 / 0] is NaN. *)
Definition div (a b : number) : number :=
  match a, b with
  | NaN, _ | _, NaN => NaN
  | Fin r, Fin s => if Req_dec_T s 0 then inf_of (sgn r) else Fin (r / s)
  | Fin _, PosInf | Fin _, NegInf => Fin 0
  | PosInf, Fin s => if Rlt_dec s 0 then NegInf else PosInf
  | NegInf, Fin s => if Rlt_dec s 0 then PosInf else NegInf
  | _, _ => NaN
  end.

(** [a < b]; every comparison with NaN is false. *)
Definition ltb (a b : number) : bool :=
  match a, b with
  | NaN, _ | _, NaN => false
  | Fin r, Fin s => if Rlt_dec r s then true else false
  | _, NegInf => false
  | NegInf, _ => true
  | PosInf, _ => false
  | Fin _, PosInf => true
  end.

(** [Math.min(a, b)] and [Math.max(a, b)]: NaN when an argument is NaN. *)
Definition Math_min (a b : number) : number :=
  match a, b with
  | NaN, _ | _, NaN => NaN
  | _, _ => if ltb b a then b else a
  end.

Definition Math_max (a b : number) : number :=
  match a, b with
  | NaN, _ | _, NaN => NaN
  | _, _ => if ltb a b then b else a
  end.

(** Truthiness of a number: [0] and NaN are falsy. *)
Definition truthy (a : number) : bool :=
  match a with
  | Fin r => if Req_dec_T r 0 then false else true
  | NaN => false
  | _ => true
  end.

(** [a || b] on numbers. *)
Definition or_else (a b : number) : number := if truthy a then a else b.

(** [Math.hypot(a, b)]: an infinite argument wins over NaN. *)
Definition Math_hypot (a b : number) : number :=
  match a, b with
  | PosInf, _ | NegInf, _ | _, PosInf | _, NegInf => PosInf
  | NaN, _ | _, NaN => NaN
  | Fin r, Fin s => Fin (sqrt (r * r + s * s))
  end.

(** [Math.round(a)]: the integer nearest to [a], ties towards +infinity. *)
Definition Zfloor (r : R) : Z := Int_part r.

Definition Math_round (a : number) : number :=
  match a with
  | Fin r => Fin (IZR (Zfloor (r + 1 / 2)))
  | _ => a
  end.

(** The value a canvas dimension takes when a number is assigned to it: the
    attribute is an integer, so the fractional part is dropped and what is
    not finite becomes 0.  Only non-negative numbers are assigned here.  The
    number assigned is the ideal one: the rounding of a product and the
    range of the attribute (an unsigned long that falls back to its default
    above 2147483647) are not modelled. *)
Definition to_long (a : number) : Z :=
  match a with
  | Fin r => Zfloor r
  | _ => 0%Z
  end.

(** [lo <= a <= hi] for a finite [a]. *)
Definition between (lo hi : R) (a : number) : Prop :=
  match a with
  | Fin r => lo <= r <= hi
  | _ => False
  end.

Definition is_finite (a : number) : Prop :=
  match a with Fin _ => True | _ => False end.

(** ** Program state

    The script keeps its state in a handful of object literals and [let]
    variables of one closure; they are gathered here in one record per
    object, the loose variables grouped as the source groups them
    (canvas/rendering, gesture state).  The DOM (class names, labels,
    messages, the 2D context) is outside the model. *)

(** What the browser reports: [window.innerWidth], [window.innerHeight],
    [window.devicePixelRatio].  The browser changes them; the script only
    reads them. *)
Record Window : Type := mkWindow {
  innerWidth : R;
  innerHeight : R;
  devicePixelRatio : R
}.

Record AppState : Type := mkAppState {
  hasImage : bool;
  cameraActive : bool;
  uiHidden : bool
}.

Record OverlayState : Type := mkOverlayState {
  scale : number;
  x : number;
  y : number;
  rotation : number;
  locked : bool
}.

Record FilterState : Type := mkFilterState {
  brightness : number;
  contrast : number;
  opacity : number
}.

Record FxState : Type := mkFxState {
  grayscale : bool;
  invert : bool
}.

(** A decoded image: its natural size, whether it is [complete], and whether
    it is the [new Image()] made from the offscreen canvas. *)
Record Image : Type := mkImage {
  naturalWidth : Z;
  naturalHeight : Z;
  complete : bool;
  offscreenCopy : bool
}.

Definition image_eqb (a b : Image) : bool :=
  Z.eqb (naturalWidth a) (naturalWidth b)
  && Z.eqb (naturalHeight a) (naturalHeight b)
  && Bool.eqb (complete a) (complete b)
  && Bool.eqb (offscreenCopy a) (offscreenCopy b).

(** Canvas/rendering variables. *)
Record Rendering : Type := mkRendering {
  dpr : number;
  viewportWidth : number;
  viewportHeight : number;
  canvasWidth : Z;
  canvasHeight : Z;
  overlayImage : option Image;
  overlayReady : bool
}.

(** Gesture variables. *)
Record Gesture : Type := mkGesture {
  lastTapTime : number;
  lastTapX : number;
  lastTapY : number;
  panStartX : number;
  panStartY : number;
  overlayStartX : number;
  overlayStartY : number;
  pinchStartDistance : number;
  pinchStartScale : number;
  pinchStartCenterX : number;
  pinchStartCenterY : number;
  overlayStartXForPinch : number;
  overlayStartYForPinch : number
}.

Record World : Type := mkWorld {
  window : Window;
  appState : AppState;
  overlayState : OverlayState;
  filterState : FilterState;
  fxState : FxState;
  rendering : Rendering;
  gesture : Gesture
}.

(** *** Field updates *)

Definition with_window (v : Window) (w : World) : World :=
  mkWorld v (appState w) (overlayState w) (filterState w) (fxState w)
          (rendering w) (gesture w).
Definition with_appState (v : AppState) (w : World) : World :=
  mkWorld (window w) v (overlayState w) (filterState w) (fxState w)
          (rendering w) (gesture w).
Definition with_overlayState (v : OverlayState) (w : World) : World :=
  mkWorld (window w) (appState w) v (filterState w) (fxState w)
          (rendering w) (gesture w).
Definition with_filterState (v : FilterState) (w : World) : World :=
  mkWorld (window w) (appState w) (overlayState w) v (fxState w)
          (rendering w) (gesture w).
Definition with_fxState (v : FxState) (w : World) : World :=
  mkWorld (window w) (appState w) (overlayState w) (filterState w) v
          (rendering w) (gesture w).
Definition with_rendering (v : Rendering) (w : World) : World :=
  mkWorld (window w) (appState w) (overlayState w) (filterState w) (fxState w)
          v (gesture w).
Definition with_gesture (v : Gesture) (w : World) : World :=
  mkWorld (window w) (appState w) (overlayState w) (filterState w) (fxState w)
          (rendering w) v.

Definition set_hasImage (v : bool) (w : World) : World :=
  with_appState (mkAppState v (cameraActive (appState w)) (uiHidden (appState w))) w.
Definition set_cameraActive (v : bool) (w : World) : World :=
  with_appState (mkAppState (hasImage (appState w)) v (uiHidden (appState w))) w.
Definition set_uiHidden (v : bool) (w : World) : World :=
  with_appState (mkAppState (hasImage (appState w)) (cameraActive (appState w)) v) w.

Definition set_scale (v : number) (w : World) : World :=
  let o := overlayState w in
  with_overlayState (mkOverlayState v (x o) (y o) (rotation o) (locked o)) w.
Definition set_x (v : number) (w : World) : World :=
  let o := overlayState w in
  with_overlayState (mkOverlayState (scale o) v (y o) (rotation o) (locked o)) w.
Definition set_y (v : number) (w : World) : World :=
  let o := overlayState w in
  with_overlayState (mkOverlayState (scale o) (x o) v (rotation o) (locked o)) w.
Definition set_locked (v : bool) (w : World) : World :=
  let o := overlayState w in
  with_overlayState (mkOverlayState (scale o) (x o) (y o) (rotation o) v) w.

Definition set_brightness (v : number) (w : World) : World :=
  let f := filterState w in
  with_filterState (mkFilterState v (contrast f) (opacity f)) w.
Definition set_contrast (v : number) (w : World) : World :=
  let f := filterState w in
  with_filterState (mkFilterState (brightness f) v (opacity f)) w.
Definition set_opacity (v : number) (w : World) : World :=
  let f := filterState w in
  with_filterState (mkFilterState (brightness f) (contrast f) v) w.
Definition set_grayscale (v : bool) (w : World) : World :=
  with_fxState (mkFxState v (invert (fxState w))) w.
Definition set_invert (v : bool) (w : World) : World :=
  with_fxState (mkFxState (grayscale (fxState w)) v) w.

Definition set_viewport (vw vh ratio : number) (w : World) : World :=
  let r := rendering w in
  with_rendering (mkRendering ratio vw vh (canvasWidth r) (canvasHeight r)
                              (overlayImage r) (overlayReady r)) w.
Definition set_canvasSize (cw ch : Z) (w : World) : World :=
  let r := rendering w in
  with_rendering (mkRendering (dpr r) (viewportWidth r) (viewportHeight r) cw ch
                              (overlayImage r) (overlayReady r)) w.
Definition set_overlayImage (v : option Image) (w : World) : World :=
  let r := rendering w in
  with_rendering (mkRendering (dpr r) (viewportWidth r) (viewportHeight r)
                              (canvasWidth r) (canvasHeight r)
                              v (overlayReady r)) w.
Definition set_overlayReady (v : bool) (w : World) : World :=
  let r := rendering w in
  with_rendering (mkRendering (dpr r) (viewportWidth r) (viewportHeight r)
                              (canvasWidth r) (canvasHeight r)
                              (overlayImage r) v) w.

Definition set_lastTap (t tx ty : number) (w : World) : World :=
  let g := gesture w in
  with_gesture (mkGesture t tx ty
                          (panStartX g) (panStartY g)
                          (overlayStartX g) (overlayStartY g)
                          (pinchStartDistance g) (pinchStartScale g)
                          (pinchStartCenterX g) (pinchStartCenterY g)
                          (overlayStartXForPinch g) (overlayStartYForPinch g)) w.
Definition set_lastTapTime (t : number) (w : World) : World :=
  set_lastTap t (lastTapX (gesture w)) (lastTapY (gesture w)) w.
Definition set_panOrigin (px py ox oy : number) (w : World) : World :=
  let g := gesture w in
  with_gesture (mkGesture (lastTapTime g) (lastTapX g) (lastTapY g)
                          px py ox oy
                          (pinchStartDistance g) (pinchStartScale g)
                          (pinchStartCenterX g) (pinchStartCenterY g)
                          (overlayStartXForPinch g) (overlayStartYForPinch g)) w.
Definition set_pinchStartDistance (d : number) (w : World) : World :=
  let g := gesture w in
  with_gesture (mkGesture (lastTapTime g) (lastTapX g) (lastTapY g)
                          (panStartX g) (panStartY g)
                          (overlayStartX g) (overlayStartY g)
                          d (pinchStartScale g)
                          (pinchStartCenterX g) (pinchStartCenterY g)
                          (overlayStartXForPinch g) (overlayStartYForPinch g)) w.
Definition set_pinchOrigin (d s cx cy ox oy : number) (w : World) : World :=
  let g := gesture w in
  with_gesture (mkGesture (lastTapTime g) (lastTapX g) (lastTapY g)
                          (panStartX g) (panStartY g)
                          (overlayStartX g) (overlayStartY g)
                          d s cx cy ox oy) w.

(** ** Canvas sizing *)

Definition updateViewportSize (w : World) : World :=
  set_viewport (Fin (innerWidth (window w)))
               (Fin (innerHeight (window w)))
               (or_else (Fin (devicePixelRatio (window w))) (Fin 1)) w.

Definition resizeCanvas (w : World) : World :=
  let w := updateViewportSize w in
  let r := rendering w in
  set_canvasSize (to_long (mul (viewportWidth r) (dpr r)))
                 (to_long (mul (viewportHeight r) (dpr r))) w.

(** ** Camera *)

Definition stopCamera (w : World) : World := set_cameraActive false w.

(** ** App / UI states *)

Definition resetOverlayTransform (w : World) : World :=
  let w := set_scale (Fin 1) w in
  let w := set_x (div (viewportWidth (rendering w)) (Fin 2)) w in
  set_y (div (viewportHeight (rendering w)) (Fin 2)) w.

Definition resetFilters (w : World) : World :=
  let w := set_brightness (Fin 1) w in
  let w := set_contrast (Fin 1) w in
  let w := set_opacity (Fin (7 / 10)) w in
  let w := set_grayscale false w in
  set_invert false w.

Definition enterLandingMode (w : World) : World :=
  let w := stopCamera w in
  let w := set_overlayImage None w in
  let w := set_overlayReady false w in
  let w := set_hasImage false w in
  let w := set_uiHidden false w in
  let w := set_locked false w in
  let w := resetOverlayTransform w in
  resetFilters w.

Definition toggleLock (w : World) : World :=
  set_locked (negb (locked (overlayState w))) w.

Definition setUiHidden (hidden : bool) (w : World) : World :=
  set_uiHidden hidden w.

(** The part of [startCamera] that runs once the stream has been granted
    and the video plays. *)
Definition startCamera_granted (w : World) : World :=
  if negb (hasImage (appState w)) then w
  else if cameraActive (appState w) then w
  else resizeCanvas (set_cameraActive true w).

(** ** Image loading & downscaling *)

Definition maxDim : Z := 4096.

(** [completeNow] is what [scaledImg.complete] answers right after its
    [src] has been assigned; the browser decides it. *)
Definition createDownscaledImageIfNeeded (completeNow : bool) (img : Image) : Image :=
  let w := naturalWidth img in
  let h := naturalHeight img in
  let largest := Z.max w h in
  if (largest <=? maxDim)%Z then img
  else
    let scale := div (Fin (IZR maxDim)) (Fin (IZR largest)) in
    let targetW := Math_round (mul (Fin (IZR w)) scale) in
    let targetH := Math_round (mul (Fin (IZR h)) scale) in
    mkImage (to_long targetW) (to_long targetH) completeNow true.

(** The tail shared by the two [onload] callbacks: the image is exposed to
    the render loop. *)
Definition exposeImage (finalImg : Image) (w : World) : World :=
  let w := set_overlayImage (Some finalImg) w in
  let w := set_overlayReady true w in
  let w := set_hasImage true w in
  let w := resizeCanvas w in
  let w := resetOverlayTransform w in
  resetFilters w.

(** [img.onload] of [handleImageFile].  The second component is the
    downscaled image whose own [onload] is awaited, if any. *)
Definition handleImageFile_onload (completeNow : bool) (img : Image) (w : World)
  : World * option Image :=
  if (4096 <? Z.max (naturalWidth img) (naturalHeight img))%Z then
    let finalImg := createDownscaledImageIfNeeded completeNow img in
    if negb (image_eqb finalImg img) && negb (complete finalImg)
    then (w, Some finalImg)
    else (exposeImage finalImg w, None)
  else (exposeImage img w, None).

(** [finalImg.onload] of the downscaled image. *)
Definition finalImg_onload (finalImg : Image) (w : World) : World :=
  exposeImage finalImg w.

(** ** Touch gestures (pinch, pan, double-tap) *)

Record Touch : Type := mkTouch {
  clientX : R;
  clientY : R
}.

(** [now] is what [Date.now()] answers during the call. *)
Definition handleTouchStart (touches : list Touch) (now : R) (w : World) : World :=
  if negb (overlayReady (rendering w)) then w
  else if uiHidden (appState w) then setUiHidden false w
  else
    match touches with
    | [t] =>
        let tx := Fin (clientX t) in
        let ty := Fin (clientY t) in
        let dt := sub (Fin now) (lastTapTime (gesture w)) in
        let dx := sub tx (lastTapX (gesture w)) in
        let dy := sub ty (lastTapY (gesture w)) in
        let dist2 := add (mul dx dx) (mul dy dy) in
        let w :=
          if ltb dt (Fin 300) && ltb dist2 (mul (Fin 30) (Fin 30))
          then set_lastTapTime (Fin 0) (resetOverlayTransform w)
          else set_lastTap (Fin now) tx ty w in
        if locked (overlayState w) then w
        else set_panOrigin tx ty (x (overlayState w)) (y (overlayState w)) w
    | [t0; t1] =>
        if locked (overlayState w) then w
        else
          let dx := sub (Fin (clientX t1)) (Fin (clientX t0)) in
          let dy := sub (Fin (clientY t1)) (Fin (clientY t0)) in
          set_pinchOrigin
            (or_else (Math_hypot dx dy) (Fin 1))
            (scale (overlayState w))
            (div (add (Fin (clientX t0)) (Fin (clientX t1))) (Fin 2))
            (div (add (Fin (clientY t0)) (Fin (clientY t1))) (Fin 2))
            (x (overlayState w))
            (y (overlayState w)) w
    | _ => w
    end.

Definition handleTouchMove (touches : list Touch) (w : World) : World :=
  if negb (overlayReady (rendering w)) || locked (overlayState w) then w
  else
    match touches with
    | [t] =>
        let dx := sub (Fin (clientX t)) (panStartX (gesture w)) in
        let dy := sub (Fin (clientY t)) (panStartY (gesture w)) in
        let w := set_x (add (overlayStartX (gesture w)) dx) w in
        set_y (add (overlayStartY (gesture w)) dy) w
    | [t0; t1] =>
        let g := gesture w in
        let dx := sub (Fin (clientX t1)) (Fin (clientX t0)) in
        let dy := sub (Fin (clientY t1)) (Fin (clientY t0)) in
        let dist := or_else (Math_hypot dx dy) (Fin 1) in
        let newScale := mul (div dist (pinchStartDistance g)) (pinchStartScale g) in
        let newScale := Math_max (Fin (1 / 10)) (Math_min (Fin 8) newScale) in
        let centerX := div (add (Fin (clientX t0)) (Fin (clientX t1))) (Fin 2) in
        let centerY := div (add (Fin (clientY t0)) (Fin (clientY t1))) (Fin 2) in
        let worldX := div (sub centerX (overlayStartXForPinch g)) (pinchStartScale g) in
        let worldY := div (sub centerY (overlayStartYForPinch g)) (pinchStartScale g) in
        let w := set_scale newScale w in
        let w := set_x (sub centerX (mul worldX newScale)) w in
        set_y (sub centerY (mul worldY newScale)) w
    | _ => w
    end.

(** [touches] are the touches that remain on the screen. *)
Definition handleTouchEnd (touches : list Touch) (w : World) : World :=
  match touches with
  | [] => set_pinchStartDistance (Fin 0) w
  | _ => w
  end.

(** ** UI event wiring: the listeners of [initControls] *)

Definition zoomIn_click (w : World) : World :=
  if negb (overlayReady (rendering w)) || locked (overlayState w) then w
  else
    let factor := Fin (11 / 10) in
    let newScale := mul (scale (overlayState w)) factor in
    set_scale (Math_min (Fin 8) newScale) w.

Definition zoomOut_click (w : World) : World :=
  if negb (overlayReady (rendering w)) || locked (overlayState w) then w
  else
    let factor := div (Fin 1) (Fin (11 / 10)) in
    let newScale := mul (scale (overlayState w)) factor in
    set_scale (Math_max (Fin (1 / 10)) newScale) w.

Definition reset_click (w : World) : World := resetOverlayTransform w.

Definition changeImage_click (w : World) : World :=
  enterLandingMode (stopCamera w).

Definition hideUi_click (w : World) : World :=
  setUiHidden (negb (uiHidden (appState w))) w.

Definition canvas_click (w : World) : World :=
  if uiHidden (appState w) then setUiHidden false w else w.

(** The sliders hand over [parseFloat(slider.value)]. *)
Definition brightness_input (v : number) (w : World) : World := set_brightness v w.
Definition contrast_input (v : number) (w : World) : World := set_contrast v w.
Definition opacity_input (v : number) (w : World) : World := set_opacity v w.

(** The listener of [resize] and of [orientationchange] (the two are the
    same code). *)
Definition window_resize (w : World) : World :=
  if negb (cameraActive (appState w)) then w
  else resetOverlayTransform (resizeCanvas w).

(** ** Boot *)

Definition initialGesture : Gesture :=
  mkGesture (Fin 0) (Fin 0) (Fin 0) (Fin 0) (Fin 0) (Fin 0) (Fin 0)
            (Fin 0) (Fin 1) (Fin 0) (Fin 0) (Fin 0) (Fin 0).

Definition initialWorld (win : Window) : World :=
  mkWorld win
          (mkAppState false false false)
          (mkOverlayState (Fin 1) (Fin 0) (Fin 0) (Fin 0) false)
          (mkFilterState (Fin 1) (Fin 1) (Fin (7 / 10)))
          (mkFxState false false)
          (mkRendering (or_else (Fin (devicePixelRatio win)) (Fin 1))
                       (Fin 0) (Fin 0) 300%Z 150%Z None false)
          initialGesture.

(** The [load] listener: [enterLandingMode()] (the other calls only wire
    listeners and start the render loop). *)
Definition boot (win : Window) : World := enterLandingMode (initialWorld win).

(** ** Events

    What the browser delivers, with the environment values the listener
    reads while it runs. *)
Inductive Event : Type :=
| TouchStart (touches : list Touch) (now : R)
| TouchMove (touches : list Touch)
| TouchEnd (touches : list Touch)
| ZoomInClick
| ZoomOutClick
| LockClick
| ResetClick
| ChangeImageClick
| HideUiClick
| CanvasClick
| BrightnessInput (v : number)
| ContrastInput (v : number)
| OpacityInput (v : number)
| Resize (win : Window)
| OrientationChange (win : Window)
| CameraGranted
| ImageLoad (completeNow : bool) (img : Image)
| ScaledImageLoad (finalImg : Image).

Definition handle (e : Event) (w : World) : World :=
  match e with
  | TouchStart touches now => handleTouchStart touches now w
  | TouchMove touches => handleTouchMove touches w
  | TouchEnd touches => handleTouchEnd touches w
  | ZoomInClick => zoomIn_click w
  | ZoomOutClick => zoomOut_click w
  | LockClick => toggleLock w
  | ResetClick => reset_click w
  | ChangeImageClick => changeImage_click w
  | HideUiClick => hideUi_click w
  | CanvasClick => canvas_click w
  | BrightnessInput v => brightness_input v w
  | ContrastInput v => contrast_input v w
  | OpacityInput v => opacity_input v w
  | Resize win | OrientationChange win => window_resize (with_window win w)
  | CameraGranted => startCamera_granted w
  | ImageLoad completeNow img => fst (handleImageFile_onload completeNow img w)
  | ScaledImageLoad finalImg => finalImg_onload finalImg w
  end.

Fixpoint run (es : list Event) (w : World) : World :=
  match es with
  | [] => w
  | e :: es => run es (handle e w)
  end.

(** The states after each event of a run, in order. *)
Fixpoint trace (es : list Event) (w : World) : list World :=
  match es with
  | [] => []
  | e :: es => handle e w :: trace es (handle e w)
  end.

(** ** Derived notions used by the statements *)

(** The inter-finger distance of the pinch handlers,
    [Math.hypot(dx, dy) || 1], as a real number. *)
Definition fingerDistance (t0 t1 : Touch) : R :=
  let d := sqrt ((clientX t1 - clientX t0) * (clientX t1 - clientX t0)
                 + (clientY t1 - clientY t0) * (clientY t1 - clientY t0)) in
  if Req_dec_T d 0 then 1 else d.

(** The midpoint of two touches and the clamped scale of a pinch from
    distance [d0] at scale [s0] to distance [d1], as real numbers. *)
Definition midpointX (t0 t1 : Touch) : R := (clientX t0 + clientX t1) / 2.
Definition midpointY (t0 t1 : Touch) : R := (clientY t0 + clientY t1) / 2.
Definition pinchScale (d0 d1 s0 : R) : R := Rmax (1 / 10) (Rmin 8 (d1 / d0 * s0)).

(** The placement the gestures act on. *)
Definition transform (w : World) : number * number * number :=
  (scale (overlayState w), x (overlayState w), y (overlayState w)).

(** What [resetOverlayTransform] makes of the placement. *)
Definition centered (w : World) : number * number * number :=
  (Fin 1, div (viewportWidth (rendering w)) (Fin 2),
          div (viewportHeight (rendering w)) (Fin 2)).

Definition is_gesture (e : Event) : bool :=
  match e with
  | TouchStart _ _ | TouchMove _ | TouchEnd _ => true
  | _ => false
  end.

(** The test of the double-tap branch of [handleTouchStart], where the
    handler reaches it. *)
Definition doubleTapFires (touches : list Touch) (now : R) (w : World) : bool :=
  overlayReady (rendering w) && negb (uiHidden (appState w)) &&
  match touches with
  | [t] =>
      let dt := sub (Fin now) (lastTapTime (gesture w)) in
      let dx := sub (Fin (clientX t)) (lastTapX (gesture w)) in
      let dy := sub (Fin (clientY t)) (lastTapY (gesture w)) in
      ltb dt (Fin 300) && ltb (add (mul dx dx) (mul dy dy)) (mul (Fin 30) (Fin 30))
  | _ => false
  end.

(** The last-tap reference of the double-tap detection. *)
Definition lastTap (w : World) : number * number * number :=
  (lastTapTime (gesture w), lastTapX (gesture w), lastTapY (gesture w)).

(** What may come between two taps: the finger moves and lifts. *)
Definition is_move_or_end (e : Event) : bool :=
  match e with
  | TouchMove _ | TouchEnd _ => true
  | _ => false
  end.

Definition is_touch_move (e : Event) : bool :=
  match e with
  | TouchMove _ => true
  | _ => false
  end.

(** The position the specification's wording of the pinch gives: the world
    coordinate is taken from the midpoint [mx] recorded at pinch start. *)
Definition spec_pinch_position (mx c origin s0 newScale : R) : R :=
  c - ((mx - origin) / s0) * newScale.

(** No touch-start of the run is a double-tap. *)
Fixpoint no_double_tap (es : list Event) (w : World) : bool :=
  match es with
  | [] => true
  | e :: es =>
      match e with
      | TouchStart touches now => negb (doubleTapFires touches now w)
      | _ => true
      end && no_double_tap es (handle e w)
  end.

(** The scale invariant of the data model, with what the pinch handler needs
    of its snapshot: the recorded scale is an earlier value of [scale], the
    recorded distance is a finite number. *)
Definition scale_ok (w : World) : Prop :=
  between (1 / 10) 8 (scale (overlayState w))
  /\ between (1 / 10) 8 (pinchStartScale (gesture w))
  /\ is_finite (pinchStartDistance (gesture w)).

Definition defaultFilters : FilterState := mkFilterState (Fin 1) (Fin 1) (Fin (7 / 10)).
Definition defaultFx : FxState := mkFxState false false.

(** *** A session used in the examples: a 2000x1000 picture on a 400x800
    phone.  [loaded] is the state once the picture has loaded, [drawing] the
    state once the camera runs (see [session_reached]). *)
Definition phone : Window := mkWindow 400 800 2.
Definition landscape : Window := mkWindow 800 400 2.
Definition photo : Image := mkImage 2000 1000 true false.
Definition poster : Image := mkImage 8000 6000 true false.

Definition loaded : World :=
  mkWorld phone
          (mkAppState true false false)
          (mkOverlayState (Fin 1) (Fin 200) (Fin 400) (Fin 0) false)
          defaultFilters
          defaultFx
          (mkRendering (Fin 2) (Fin 400) (Fin 800) 800 1600 (Some photo) true)
          initialGesture.

Definition drawing : World := set_cameraActive true loaded.

(** ** Rendering

    What [drawOverlay] asks of the 2D context, after it has cleared the
    canvas: nothing, or one [drawImage] with the filter, the opacity and
    (for a rotated overlay) the pivot set before it. *)


(** The parts [getFilterString] joins with spaces. *)
Inductive FilterPart : Type :=
| BrightnessPart (v : number)
| ContrastPart (v : number)
| GrayscalePart
| InvertPart.

Definition getFilterString (w : World) : list FilterPart :=
  let parts := [BrightnessPart (brightness (filterState w));
                ContrastPart (contrast (filterState w))] in
  let parts := if grayscale (fxState w) then parts ++ [GrayscalePart] else parts in
  if invert (fxState w) then parts ++ [InvertPart] else parts.



(** ** Render loop

    [animationFrameId] with the browser's side of [requestAnimationFrame]:
    the callbacks waiting for the next frame and the next handle to give
    out.  [frames] counts the calls of [drawOverlay]. *)
Record Loop : Type := mkLoop {
  animationFrameId : option nat;
  waiting : list nat;
  nextHandle : nat;
  frames : nat
}.

(** [window.requestAnimationFrame(renderLoop)]: the handle and the loop
    with the callback queued.  The handle is the browser's counter, an
    unsigned long there and a natural number here: the two agree while the
    counter has not passed 4294967295. *)
Definition requestAnimationFrame (l : Loop) : nat * Loop :=
  (nextHandle l,
   mkLoop (animationFrameId l) (waiting l ++ [nextHandle l]) (S (nextHandle l))
          (frames l)).

Definition cancelAnimationFrame (id : nat) (l : Loop) : Loop :=
  mkLoop (animationFrameId l)
         (filter (fun h => negb (Nat.eqb h id)) (waiting l))
         (nextHandle l) (frames l).

Definition set_animationFrameId (v : option nat) (l : Loop) : Loop :=
  mkLoop v (waiting l) (nextHandle l) (frames l).

Definition renderLoop (l : Loop) : Loop :=
  let l := mkLoop (animationFrameId l) (waiting l) (nextHandle l) (S (frames l)) in
  let (id, l) := requestAnimationFrame l in
  set_animationFrameId (Some id) l.

Definition startRenderLoop (l : Loop) : Loop :=
  match animationFrameId l with
  | Some _ => l
  | None =>
      let (id, l) := requestAnimationFrame l in
      set_animationFrameId (Some id) l
  end.

Definition stopRenderLoop (l : Loop) : Loop :=
  match animationFrameId l with
  | None => l
  | Some id => set_animationFrameId None (cancelAnimationFrame id l)
  end.

(** The browser reaches the next frame: it takes the callbacks that wait
    and runs them, each one a [renderLoop]. *)
Definition nextFrame (l : Loop) : Loop :=
  fold_left (fun l _ => renderLoop l) (waiting l)
            (mkLoop (animationFrameId l) [] (nextHandle l) (frames l)).

Inductive LoopEvent : Type :=
| StartLoop
| StopLoop
| Frame.

Definition loopStep (e : LoopEvent) (l : Loop) : Loop :=
  match e with
  | StartLoop => startRenderLoop l
  | StopLoop => stopRenderLoop l
  | Frame => nextFrame l
  end.

Fixpoint loopRun (es : list LoopEvent) (l : Loop) : Loop :=
  match es with
  | [] => l
  | e :: es => loopRun es (loopStep e l)
  end.

(** The page before [startRenderLoop()] is called. *)
Definition idleLoop : Loop := mkLoop None [] 1 0.

(** ** Camera *)

From Stdlib Require String.
Import String.StringSyntax.
Delimit Scope string_scope with string.
Bind Scope string_scope with String.string.

(** How [navigator.mediaDevices.getUserMedia] (and [video.play]) turn out. *)
Inductive CameraOutcome : Type :=
| NoMediaDevices
| Rejected
| Granted.

(** [startCamera()], run to its end, with the message it shows (if any). *)
Definition startCamera (outcome : CameraOutcome) (w : World)
  : World * option String.string :=
  if negb (hasImage (appState w)) then (w, Some "Upload an image first."%string)
  else if cameraActive (appState w) then (w, None)
  else
    match outcome with
    | NoMediaDevices => (w, Some "Camera not supported in this browser."%string)
    | Granted => (resizeCanvas (set_cameraActive true w), None)
    | Rejected => (w, Some "Unable to access camera. Check permissions."%string)
    end.

(** ** PWA / install hint *)

(** [window.localStorage], as the list of its entries. *)
Definition Storage : Type := list (String.string * String.string).

Fixpoint getItem (key : String.string) (s : Storage) : option String.string :=
  match s with
  | [] => None
  | (k, v) :: s => if String.eqb k key then Some v else getItem key s
  end.

Fixpoint setItem (key value : String.string) (s : Storage) : Storage :=
  match s with
  | [] => [(key, value)]
  | (k, v) :: s =>
      if String.eqb k key then (k, value) :: s else (k, v) :: setItem key value s
  end.

(** The page as the install hint sees it: whether the hint element is
    hidden, the local storage, and whether the two listeners (dismiss
    click, [appinstalled]) have been added. *)
Record HintPage : Type := mkHintPage {
  installHintHidden : bool;
  localStorage : Storage;
  hintListeners : bool
}.

(** [mq] is [window.matchMedia && window.matchMedia(...).matches],
    [iosStandalone] is [window.navigator.standalone === true]. *)
Definition isStandaloneDisplayMode (mq iosStandalone : bool) : bool :=
  mq || iosStandalone.

(** [elements] tells whether both [installHint] and [dismissInstallHint]
    were found in the document. *)
Definition initInstallHint (elements mq iosStandalone : bool) (p : HintPage) : HintPage :=
  if negb elements then p
  else if isStandaloneDisplayMode mq iosStandalone
  then mkHintPage true (localStorage p) (hintListeners p)
  else
    let dismissed :=
      match getItem "a2hsHintDismissed" (localStorage p) with
      | Some v => String.eqb v "true"%string
      | None => false
      end in
    let p := if negb dismissed
             then mkHintPage false (localStorage p) (hintListeners p)
             else p in
    mkHintPage (installHintHidden p) (localStorage p) true.

(** The listener of the dismiss button. *)
Definition dismissInstallHint_click (p : HintPage) : HintPage :=
  if hintListeners p
  then mkHintPage true (setItem "a2hsHintDismissed" "true" (localStorage p))
                  (hintListeners p)
  else p.

(** The listener of [appinstalled]. *)
Definition appinstalled (p : HintPage) : HintPage :=
  if hintListeners p
  then mkHintPage true (setItem "a2hsHintDismissed" "true" (localStorage p))
                  (hintListeners p)
  else p.

(** A page freshly loaded over the storage [s]: the hint is hidden in the
    markup until the script shows it, and nothing listens yet. *)
Definition freshPage (s : Storage) : HintPage := mkHintPage true s false.

(** ** Service worker

    The cache storage maps cache names to caches, a cache maps request URLs
    to responses; both are kept as lists of entries, oldest first. *)

Inductive Response : Type :=
| HttpResponse (ok : bool) (body : String.string)
| ResponseError.

Definition Cache : Type := list (String.string * Response).
Definition CacheStorage : Type := list (String.string * Cache).

(** The network: what [fetch(url)] resolves to, [None] when it rejects. *)
Definition Network : Type := String.string -> option Response.

Definition CACHE_NAME : String.string := "ar-tracer-cache-v1".

Definition ASSETS : list String.string :=
  ["./"; "./index.html"; "./style.css"; "./app.js"; "./manifest.json"]%string.

(** [cache.match(url)] *)
Fixpoint cache_match (url : String.string) (c : Cache) : option Response :=
  match c with
  | [] => None
  | (u, r) :: c => if String.eqb u url then Some r else cache_match url c
  end.

(** [cache.put(url, response)]: replaces the entry of the URL. *)
Fixpoint cache_put (url : String.string) (r : Response) (c : Cache) : Cache :=
  match c with
  | [] => [(url, r)]
  | (u, r') :: c =>
      if String.eqb u url then (u, r) :: c else (u, r') :: cache_put url r c
  end.

(** [caches.match(url)]: the first cache, in creation order, that has the
    URL answers. *)
Fixpoint caches_match (url : String.string) (cs : CacheStorage) : option Response :=
  match cs with
  | [] => None
  | (_, c) :: cs =>
      match cache_match url c with
      | Some r => Some r
      | None => caches_match url cs
      end
  end.

Fixpoint caches_has (name : String.string) (cs : CacheStorage) : bool :=
  match cs with
  | [] => false
  | (n, _) :: cs => String.eqb n name || caches_has name cs
  end.

(** [caches.open(name)]: the cache is created when it does not exist. *)
Definition caches_open (name : String.string) (cs : CacheStorage) : CacheStorage :=
  if caches_has name cs then cs else cs ++ [(name, [])].

(** [caches.delete(name)] *)
Fixpoint caches_delete (name : String.string) (cs : CacheStorage) : CacheStorage :=
  match cs with
  | [] => []
  | (n, c) :: cs =>
      if String.eqb n name then caches_delete name cs
      else (n, c) :: caches_delete name cs
  end.

(** [caches.keys()] *)
Definition caches_keys (cs : CacheStorage) : list String.string := map fst cs.

(** The responses [cache.addAll(urls)] fetches: all of them, or [None] when
    a fetch rejects or a response is not ok. *)
Fixpoint fetchAll (net : Network) (urls : list String.string)
  : option (list (String.string * Response)) :=
  match urls with
  | [] => Some []
  | u :: urls =>
      match net u with
      | Some (HttpResponse true body) =>
          match fetchAll net urls with
          | Some rs => Some ((u, HttpResponse true body) :: rs)
          | None => None
          end
      | _ => None
      end
  end.

Fixpoint update_cache (name : String.string) (f : Cache -> Cache) (cs : CacheStorage)
  : CacheStorage :=
  match cs with
  | [] => []
  | (n, c) :: cs =>
      if String.eqb n name then (n, f c) :: cs else (n, c) :: update_cache name f cs
  end.

(** [cache.addAll(urls)] on the cache [name]: nothing is stored unless
    every response has arrived and is ok. *)
Definition cache_addAll (net : Network) (name : String.string)
    (urls : list String.string) (cs : CacheStorage) : option CacheStorage :=
  match fetchAll net urls with
  | Some rs =>
      Some (update_cache name
              (fun c => fold_left (fun c ur => cache_put (fst ur) (snd ur) c) rs c) cs)
  | None => None
  end.

(** The [install] listener: [addAll] may fail, the installation does not
    ([.catch(() => undefined)]). *)
Definition sw_install (net : Network) (cs : CacheStorage) : CacheStorage :=
  let cs := caches_open CACHE_NAME cs in
  match cache_addAll net CACHE_NAME ASSETS cs with
  | Some cs' => cs'
  | None => cs
  end.

(** The [activate] listener: every cache but [CACHE_NAME] is deleted. *)
Definition sw_activate (cs : CacheStorage) : CacheStorage :=
  fold_left (fun cs key => caches_delete key cs)
            (filter (fun key => negb (String.eqb key CACHE_NAME)) (caches_keys cs))
            cs.

(** The [fetch] listener: [None] when the worker does not answer (the
    browser then handles the request itself), otherwise the response it
    answers with. *)
Definition sw_fetch (method url : String.string) (net : Network) (cs : CacheStorage)
  : option Response :=
  if negb (String.eqb method "GET"%string) then None
  else
    Some (match caches_match url cs with
          | Some cached => cached
          | None =>
              match net url with
              | Some r => r
              | None => ResponseError
              end
          end).

Definition offline : Network := fun _ => None.

(** ** Invariants of the reachable states *)

(** The numbers the transform is computed from are finite. *)
Definition finite_state (w : World) : Prop :=
  is_finite (x (overlayState w))
  /\ is_finite (y (overlayState w))
  /\ is_finite (viewportWidth (rendering w))
  /\ is_finite (viewportHeight (rendering w))
  /\ is_finite (panStartX (gesture w))
  /\ is_finite (panStartY (gesture w))
  /\ is_finite (overlayStartX (gesture w))
  /\ is_finite (overlayStartY (gesture w))
  /\ is_finite (overlayStartXForPinch (gesture w))
  /\ is_finite (overlayStartYForPinch (gesture w)).

(** [overlayReady], [appState.hasImage] and [overlayImage] say the same. *)
Definition image_flags_agree (w : World) : Prop :=
  hasImage (appState w) = overlayReady (rendering w)
  /\ overlayReady (rendering w)
     = match overlayImage (rendering w) with Some _ => true | None => false end.

Definition state_ok (w : World) : Prop :=
  scale_ok w
  /\ finite_state w
  /\ rotation (overlayState w) = Fin 0
  /\ image_flags_agree w
  /\ fxState w = defaultFx.

(** The origins a touch-start records for the pan and for the pinch. *)
Definition gestureOrigins (w : World) : list number :=
  let g := gesture w in
  [panStartX g; panStartY g; overlayStartX g; overlayStartY g;
   pinchStartDistance g; pinchStartScale g; pinchStartCenterX g; pinchStartCenterY g;
   overlayStartXForPinch g; overlayStartYForPinch g].

(** The callbacks waiting for a frame are the one [animationFrameId] names,
    if any. *)
Definition loop_ok (l : Loop) : Prop :=
  waiting l = match animationFrameId l with Some id => [id] | None => [] end.

(** The cache the storage keeps under a name (the first one, should the
    list hold the name twice). *)
Fixpoint caches_get (name : String.string) (cs : CacheStorage) : option Cache :=
  match cs with
  | [] => None
  | (n, c) :: cs => if String.eqb n name then Some c else caches_get name cs
  end.

(** Every asset can be fetched with an ok response. *)
Definition assets_reachable (net : Network) : Prop :=
  forall u, In u ASSETS -> exists body, net u = Some (HttpResponse true body).

(** *** Examples: a network that answers every URL, and a storage left by an
    older version of the worker. *)
Definition online : Network := fun u => Some (HttpResponse true u).
Definition oldStorage : CacheStorage :=
  [("ar-tracer-cache-v0"%string, [("./app.js"%string, HttpResponse true "old"%string)])].

(** ** Facts about numbers *)

(** Settles the comparisons of real constants that the number operations
    leave behind. *)
Ltac decide_R :=
  repeat match goal with
    | |- context [Rlt_dec ?a ?b] => destruct (Rlt_dec a b); try lra
    | |- context [Rle_dec ?a ?b] => destruct (Rle_dec a b); try lra
    | |- context [Req_dec_T ?a ?b] => destruct (Req_dec_T a b); try lra
    end.

Lemma ltb_Fin (a b : R) : ltb (Fin a) (Fin b) = true <-> a < b.
Proof.
  unfold ltb. destruct (Rlt_dec a b); split; intros; try easy.
Qed.

Lemma div_Fin (a b : R) : b <> 0 -> div (Fin a) (Fin b) = Fin (a / b).
Proof.
  intros H. unfold div. destruct (Req_dec_T b 0); [contradiction | reflexivity].
Qed.

Lemma div_by_zero_pos (a : R) : 0 < a -> div (Fin a) (Fin 0) = PosInf.
Proof.
  intros H. unfold div, sgn. decide_R. reflexivity.
Qed.

Lemma half_Fin (a : R) : div (Fin a) (Fin 2) = Fin (a / 2).
Proof. apply div_Fin. lra. Qed.

Lemma Math_min_Fin (a b : R) : Math_min (Fin a) (Fin b) = Fin (Rmin a b).
Proof.
  unfold Math_min, ltb, Rmin.
  destruct (Rlt_dec b a), (Rle_dec a b); try reflexivity; try lra.
Qed.

Lemma Math_max_Fin (a b : R) : Math_max (Fin a) (Fin b) = Fin (Rmax a b).
Proof.
  unfold Math_max, ltb, Rmax.
  destruct (Rlt_dec a b), (Rle_dec a b); try reflexivity; try lra.
  f_equal; lra.
Qed.

(** The clamp of the pinch handler, [Math.max(0.1, Math.min(8, v))], lands
    in [0.1, 8] for every number but NaN. *)
Lemma clamp_between (v : number) :
  v <> NaN -> between (1 / 10) 8 (Math_max (Fin (1 / 10)) (Math_min (Fin 8) v)).
Proof.
  intros Hv. destruct v as [r | | |]; try congruence.
  - rewrite Math_min_Fin, Math_max_Fin. simpl.
    unfold Rmax, Rmin.
    repeat match goal with
      | |- context [Rle_dec ?a ?b] => destruct (Rle_dec a b)
      end; lra.
  - simpl. decide_R. simpl. lra.
  - simpl. lra.
Qed.

Lemma clamp_Fin (r : R) :
  Math_max (Fin (1 / 10)) (Math_min (Fin 8) (Fin r)) = Fin (Rmax (1 / 10) (Rmin 8 r)).
Proof. now rewrite Math_min_Fin, Math_max_Fin. Qed.

Lemma between_Fin (lo hi : R) (a : number) :
  between lo hi a -> exists r, a = Fin r /\ lo <= r <= hi.
Proof.
  destruct a as [r | | |]; simpl; try contradiction. intros H. now exists r.
Qed.

Lemma is_finite_Fin (a : number) : is_finite a -> exists r, a = Fin r.
Proof.
  destruct a as [r | | |]; simpl; try contradiction. intros _. now exists r.
Qed.

Lemma fingerDistance_pos (t0 t1 : Touch) : 0 < fingerDistance t0 t1.
Proof.
  unfold fingerDistance.
  set (d := sqrt _).
  assert (0 <= d) by apply sqrt_pos.
  destruct (Req_dec_T d 0); lra.
Qed.

Lemma guarded_hypot (t0 t1 : Touch) :
  or_else (Math_hypot (sub (Fin (clientX t1)) (Fin (clientX t0)))
                      (sub (Fin (clientY t1)) (Fin (clientY t0))))
          (Fin 1)
  = Fin (fingerDistance t0 t1).
Proof.
  unfold or_else, Math_hypot, sub, neg, add, truthy, fingerDistance.
  replace (clientX t1 + - clientX t0) with (clientX t1 - clientX t0) by lra.
  replace (clientY t1 + - clientY t0) with (clientY t1 - clientY t0) by lra.
  destruct (Req_dec_T _ 0); reflexivity.
Qed.

Lemma midpoint_Fin (a b : R) :
  div (add (Fin a) (Fin b)) (Fin 2) = Fin ((a + b) / 2).
Proof. simpl add. apply half_Fin. Qed.

(** Normal forms of the number operations on finite arguments. *)
Create Rewrite HintDb jsnum.
#[local] Hint Rewrite half_Fin Math_min_Fin Math_max_Fin midpoint_Fin
  guarded_hypot clamp_Fin : jsnum.

(** ** Evaluation on concrete inputs *)

Lemma Zfloor_eq (r : R) (z : Z) : IZR z <= r < IZR z + 1 -> Zfloor r = z.
Proof.
  intros H. unfold Zfloor. symmetry. apply Int_part_spec. lra.
Qed.

(** Runs the listeners on concrete states, leaving the elementary functions
    and the comparisons of the reals alone. *)
Ltac ev :=
  cbv -[IZR Rdiv Rmult Rplus Rminus Ropp Rinv sqrt Int_part Zfloor Rmin Rmax
        Rlt_dec Rle_dec Req_dec_T].

Ltac ev_in H :=
  cbv -[IZR Rdiv Rmult Rplus Rminus Ropp Rinv sqrt Int_part Zfloor Rmin Rmax
        Rlt_dec Rle_dec Req_dec_T] in H.

Ltac decide_R_in H :=
  repeat match type of H with
    | context [Rlt_dec ?a ?b] => destruct (Rlt_dec a b); try lra
    | context [Rle_dec ?a ?b] => destruct (Rle_dec a b); try lra
    | context [Req_dec_T ?a ?b] => destruct (Req_dec_T a b); try lra
    end.

Ltac crunch := ev; decide_R.

(** Replaces the term [t] of the goal by its value. *)
Ltac eval_term t :=
  let v := fresh "v" in
  let Hv := fresh "Hv" in
  remember t as v eqn:Hv;
  ev_in Hv; decide_R_in Hv;
  subst v.

(** Runs the innermost listener of the goal, one event at a time, so that
    every listener starts from an evaluated state. *)
Ltac eval_handle :=
  match goal with
  | |- context [handle ?e ?W] =>
      lazymatch W with
      | context [handle] => fail
      | _ => idtac
      end;
      eval_term (handle e W)
  end.

Ltac session := cbn [run trace]; repeat eval_handle.

(** Closes equalities between evaluated records, field by field. *)
Ltac fields :=
  ev;
  repeat match goal with |- _ /\ _ => split end;
  repeat f_equal;
  try reflexivity; try lra; try (apply Zfloor_eq; lra).

(** ** The example session *)

Lemma session_reached :
  run [ImageLoad true photo] (boot phone) = loaded
  /\ run [ImageLoad true photo; CameraGranted] (boot phone) = drawing.
Proof.
  split.
  - unfold boot. crunch. fields.
  - unfold boot. crunch. fields.
Qed.

(** ** The overlay transform store *)

(** C8: [resetOverlayTransform] sets [scale = 1], [x = viewportWidth / 2],
    [y = viewportHeight / 2], and leaves [rotation] and [locked] (and
    everything outside the overlay transform) as they were, from every
    state. *)
Theorem reset_centres_and_keeps_rotation_locked (w : World) :
  let w' := resetOverlayTransform w in
  scale (overlayState w') = Fin 1
  /\ x (overlayState w') = div (viewportWidth (rendering w)) (Fin 2)
  /\ y (overlayState w') = div (viewportHeight (rendering w)) (Fin 2)
  /\ rotation (overlayState w') = rotation (overlayState w)
  /\ locked (overlayState w') = locked (overlayState w)
  /\ w' = with_overlayState (overlayState w') w.
Proof.
  cbv zeta. repeat split.
Qed.

Lemma transform_reset (w : World) :
  transform (resetOverlayTransform w) = centered w.
Proof. reflexivity. Qed.

(** On a viewport of finite size the centre is the real [(vw / 2, vh / 2)]. *)
Lemma centered_Fin (w : World) (vw vh : R) :
  viewportWidth (rendering w) = Fin vw ->
  viewportHeight (rendering w) = Fin vh ->
  centered w = (Fin 1, Fin (vw / 2), Fin (vh / 2)).
Proof.
  intros Hw Hh. unfold centered. now rewrite Hw, Hh, !half_Fin.
Qed.

(** ** Zoom buttons *)

(** C10: in an unlocked state with an image loaded (and the scale within its
    bounds), the zoom-in button sets [scale] to [min(8, scale * 1.1)], which
    is not below the old scale, the zoom-out button sets it to
    [max(0.1, scale / 1.1)], which is not above the old scale, and neither
    changes any other field. *)
Theorem zoom_buttons_scale_only (w : World) (s : R) :
  overlayReady (rendering w) = true ->
  locked (overlayState w) = false ->
  scale (overlayState w) = Fin s ->
  1 / 10 <= s <= 8 ->
  zoomIn_click w = set_scale (Fin (Rmin 8 (s * (11 / 10)))) w
  /\ s <= Rmin 8 (s * (11 / 10))
  /\ zoomOut_click w = set_scale (Fin (Rmax (1 / 10) (s / (11 / 10)))) w
  /\ Rmax (1 / 10) (s / (11 / 10)) <= s.
Proof.
  intros Hready Hlocked Hs Hb.
  unfold zoomIn_click, zoomOut_click.
  rewrite Hready, Hlocked, Hs. cbn [negb orb].
  repeat split.
  - cbn [mul]. now rewrite Math_min_Fin.
  - apply Rmin_glb; lra.
  - rewrite div_Fin by lra. cbn [mul]. rewrite Math_max_Fin.
    do 2 f_equal. f_equal. field.
  - apply Rmax_lub; lra.
Qed.

Lemma zoom_buttons_scale_only_witness :
  zoomIn_click drawing = set_scale (Fin (Rmin 8 (1 * (11 / 10)))) drawing
  /\ 1 <= Rmin 8 (1 * (11 / 10))
  /\ zoomOut_click drawing = set_scale (Fin (Rmax (1 / 10) (1 / (11 / 10)))) drawing
  /\ Rmax (1 / 10) (1 / (11 / 10)) <= 1.
Proof.
  apply (zoom_buttons_scale_only drawing 1); try reflexivity. lra.
Defined.

(** A locked overlay, or one without an image, ignores the zoom buttons. *)
Lemma zoom_buttons_gated (w : World) :
  overlayReady (rendering w) = false \/ locked (overlayState w) = true ->
  zoomIn_click w = w /\ zoomOut_click w = w.
Proof.
  unfold zoomIn_click, zoomOut_click.
  intros [H | H]; rewrite H; cbn [negb orb]; [easy |].
  now destruct (overlayReady (rendering w)).
Qed.

(** ** Viewport resize *)

(** C5 fails as stated: the listener returns at once while the camera is
    not active.  With the picture loaded on the 400x800 phone and the camera
    not yet started, turning the phone to 800x400 leaves the overlay at
    (200, 400), which is not the new centre (400, 200). *)
Lemma resize_without_camera_keeps_old_centre :
  transform (handle (Resize landscape) loaded) = (Fin 1, Fin 200, Fin 400)
  /\ ~ (x (overlayState (handle (Resize landscape) loaded))
          = Fin (innerWidth landscape / 2)
        /\ y (overlayState (handle (Resize landscape) loaded))
          = Fin (innerHeight landscape / 2)).
Proof.
  split; [reflexivity |].
  intros [H _]. apply (f_equal (fun a => match a with Fin r => r | _ => 0 end)) in H.
  cbv [handle window_resize with_window appState cameraActive loaded negb
       overlayState x landscape innerWidth] in H.
  lra.
Qed.

(** C5, amended: after a resize or orientation-change event delivered while
    the camera is active, [(x, y)] is the centre of the new viewport (and
    the scale is 1); while the camera is not active the event changes
    nothing of the script's state. *)
Theorem resize_recentres_when_camera_active (w : World) (win : Window) (e : Event) :
  e = Resize win \/ e = OrientationChange win ->
  cameraActive (appState w) = true ->
  let w' := handle e w in
  viewportWidth (rendering w') = Fin (innerWidth win)
  /\ viewportHeight (rendering w') = Fin (innerHeight win)
  /\ x (overlayState w') = Fin (innerWidth win / 2)
  /\ y (overlayState w') = Fin (innerHeight win / 2)
  /\ scale (overlayState w') = Fin 1.
Proof.
  intros He Hcam.
  assert (E : handle e w = resetOverlayTransform (resizeCanvas (with_window win w))).
  { destruct He; subst e; cbn [handle]; unfold window_resize;
      cbn [appState with_window]; now rewrite Hcam. }
  cbv zeta. rewrite E.
  cbn -[div mul to_long or_else].
  now rewrite !half_Fin.
Qed.

Lemma resize_recentres_when_camera_active_witness :
  let w' := handle (Resize landscape) drawing in
  viewportWidth (rendering w') = Fin (innerWidth landscape)
  /\ viewportHeight (rendering w') = Fin (innerHeight landscape)
  /\ x (overlayState w') = Fin (innerWidth landscape / 2)
  /\ y (overlayState w') = Fin (innerHeight landscape / 2)
  /\ scale (overlayState w') = Fin 1.
Proof.
  apply (resize_recentres_when_camera_active drawing landscape (Resize landscape)).
  - left. reflexivity.
  - reflexivity.
Defined.

Lemma resize_ignored_without_camera (w : World) (win : Window) (e : Event) :
  e = Resize win \/ e = OrientationChange win ->
  cameraActive (appState w) = false ->
  handle e w = with_window win w.
Proof.
  intros He Hcam.
  destruct He; subst e; cbn [handle]; unfold window_resize;
    cbn [appState with_window]; now rewrite Hcam.
Qed.

(** ** Filter settings *)

(** C9 fails as stated: image loading calls [resetFilters].  With the
    brightness slider at 1.5, the [onload] of a picture that was chosen
    earlier and finishes loading late puts the brightness back to 1. *)
Lemma image_load_resets_filters :
  let w := handle (BrightnessInput (Fin (3 / 2))) drawing in
  brightness (filterState w) = Fin (3 / 2)
  /\ brightness (filterState (handle (ImageLoad true photo) w)) = Fin 1
  /\ filterState (handle (ImageLoad true photo) w) <> filterState w.
Proof.
  cbv zeta. repeat split.
  intros H.
  apply (f_equal brightness) in H.
  change (Fin 1 = Fin (3 / 2)) in H.
  injection H. lra.
Qed.

(** C9, amended: the filter settings are changed only by the three sliders
    (each sets its own field) and by [resetFilters], which the change-image
    button and the image [onload] callbacks call and which restores the
    defaults (1, 1, 0.7, false, false); every other event - the touch
    gestures, the zoom, lock, reset and hide buttons, resize, camera start,
    and an image load that is still waiting for its downscaled copy - leaves
    all five fields as they were. *)
Theorem filters_changed_only_by_sliders_and_resetFilters (e : Event) (w : World) :
  let w' := handle e w in
  match e with
  | BrightnessInput v =>
      filterState w' = mkFilterState v (contrast (filterState w)) (opacity (filterState w))
      /\ fxState w' = fxState w
  | ContrastInput v =>
      filterState w' = mkFilterState (brightness (filterState w)) v (opacity (filterState w))
      /\ fxState w' = fxState w
  | OpacityInput v =>
      filterState w' = mkFilterState (brightness (filterState w)) (contrast (filterState w)) v
      /\ fxState w' = fxState w
  | ChangeImageClick | ScaledImageLoad _ =>
      filterState w' = defaultFilters /\ fxState w' = defaultFx
  | ImageLoad completeNow img =>
      match snd (handleImageFile_onload completeNow img w) with
      | None => filterState w' = defaultFilters /\ fxState w' = defaultFx
      | Some _ => filterState w' = filterState w /\ fxState w' = fxState w
      end
  | _ => filterState w' = filterState w /\ fxState w' = fxState w
  end.
Proof.
  cbv zeta. destruct e; cbn [handle]; try (split; reflexivity).
  - (* touch-start *)
    unfold handleTouchStart.
    destruct (negb (overlayReady (rendering w))); [easy |].
    destruct (uiHidden (appState w)); [easy |].
    destruct touches as [| t0 [| t1 [| t2 ts]]]; try easy.
    + match goal with |- context [if ?c then _ else _] => destruct c end;
        cbn -[div]; match goal with |- context [if ?c then _ else _] => destruct c end;
        easy.
    + destruct (locked (overlayState w)); easy.
  - (* touch-move *)
    unfold handleTouchMove.
    destruct (negb (overlayReady (rendering w)) || locked (overlayState w)); [easy |].
    destruct touches as [| t0 [| t1 [| t2 ts]]]; easy.
  - (* touch-end *)
    unfold handleTouchEnd. destruct touches; easy.
  - unfold zoomIn_click.
    destruct (negb (overlayReady (rendering w)) || locked (overlayState w)); easy.
  - unfold zoomOut_click.
    destruct (negb (overlayReady (rendering w)) || locked (overlayState w)); easy.
  - unfold canvas_click. destruct (uiHidden (appState w)); easy.
  - unfold window_resize. cbn [appState with_window].
    destruct (negb (cameraActive (appState w))); easy.
  - unfold window_resize. cbn [appState with_window].
    destruct (negb (cameraActive (appState w))); easy.
  - unfold startCamera_granted.
    destruct (negb (hasImage (appState w))); [easy |].
    destruct (cameraActive (appState w)); easy.
  - unfold handleImageFile_onload.
    destruct (4096 <? Z.max (naturalWidth img) (naturalHeight img))%Z; [| easy].
    destruct (negb (image_eqb _ img) && negb (complete _)); easy.
Qed.

(** ** Touch gestures and the lock *)

(** Splits on the double-tap test of [handleTouchStart]. *)
Ltac case_double_tap :=
  match goal with
  | |- context [if ltb ?a (Fin 300) && ?b then _ else _] =>
      destruct (ltb a (Fin 300) && b)
  end.

(** What a touch-start does to the placement, locked or not: a double-tap
    re-centres it, any other touch-start leaves it alone. *)
Lemma transform_handleTouchStart (touches : list Touch) (now : R) (w : World) :
  transform (handleTouchStart touches now w)
  = if doubleTapFires touches now w then centered w else transform w.
Proof.
  unfold handleTouchStart, doubleTapFires.
  destruct (overlayReady (rendering w)); cbn [negb andb]; [| reflexivity].
  destruct (uiHidden (appState w)); cbn [negb andb]; [reflexivity |].
  destruct touches as [| t0 [| t1 [| t2 ts]]]; try reflexivity.
  - cbv zeta.
    match goal with |- context [if ?c then _ else _] => destruct c end;
      match goal with |- context [if ?c then _ else _] => destruct c end;
      reflexivity.
  - destruct (locked (overlayState w)); reflexivity.
Qed.

Lemma handleTouchMove_locked (touches : list Touch) (w : World) :
  locked (overlayState w) = true -> handleTouchMove touches w = w.
Proof.
  intros H. unfold handleTouchMove. rewrite H.
  now destruct (overlayReady (rendering w)).
Qed.

Lemma transform_handleTouchEnd (touches : list Touch) (w : World) :
  transform (handleTouchEnd touches w) = transform w.
Proof. destruct touches; reflexivity. Qed.

(** No gesture touches the lock flag or the viewport metrics. *)
Lemma gesture_keeps_lock_and_viewport (e : Event) (w : World) :
  is_gesture e = true ->
  locked (overlayState (handle e w)) = locked (overlayState w)
  /\ rendering (handle e w) = rendering w.
Proof.
  destruct e; cbn [is_gesture]; try discriminate; intros _; cbn [handle].
  - unfold handleTouchStart.
    destruct (negb (overlayReady (rendering w))); [easy |].
    destruct (uiHidden (appState w)); [easy |].
    destruct touches as [| t0 [| t1 [| t2 ts]]]; try easy.
    + cbv zeta. case_double_tap; cbn -[div];
        destruct (locked (overlayState w)) eqn:E; (split; [exact E | reflexivity]).
    + destruct (locked (overlayState w)) eqn:E; (split; [exact E | reflexivity]).
  - unfold handleTouchMove.
    destruct (negb (overlayReady (rendering w)) || locked (overlayState w)); [easy |].
    destruct touches as [| t0 [| t1 [| t2 ts]]]; easy.
  - destruct touches; easy.
Qed.

(** One gesture event on a locked overlay: the placement stays, unless the
    event is a double-tap, which re-centres it. *)
Lemma locked_gesture_step (e : Event) (w : World) :
  is_gesture e = true ->
  locked (overlayState w) = true ->
  transform (handle e w)
  = match e with
    | TouchStart touches now =>
        if doubleTapFires touches now w then centered w else transform w
    | _ => transform w
    end.
Proof.
  destruct e; cbn [is_gesture]; try discriminate; intros _ Hl; cbn [handle].
  - apply transform_handleTouchStart.
  - now rewrite handleTouchMove_locked.
  - apply transform_handleTouchEnd.
Qed.

(** C1 fails as stated: the double-tap test of [handleTouchStart] runs
    before the lock is looked at.  Zoom in once, lock, then tap twice at the
    same point 100 ms apart: the overlay stays locked all along and its
    scale goes from 1.1 back to 1. *)
Lemma locked_double_tap_resets :
  let w := run [ZoomInClick; LockClick] drawing in
  let tap := mkTouch 100 100 in
  let es := [TouchStart [tap] 1700000000000; TouchEnd [];
             TouchStart [tap] 1700000000100; TouchEnd []] in
  forallb is_gesture es = true
  /\ Forall (fun w' => locked (overlayState w') = true) (w :: trace es w)
  /\ transform w = (Fin (1 * (11 / 10)), Fin 200, Fin 400)
  /\ transform (run es w) = (Fin 1, Fin 200, Fin 400)
  /\ transform (run es w) <> transform w.
Proof.
  cbv zeta.
  assert (Hw : transform (run [ZoomInClick; LockClick] drawing)
               = (Fin (1 * (11 / 10)), Fin 200, Fin 400)).
  { session. fields. }
  assert (Hr : transform
                 (run [TouchStart [mkTouch 100 100] 1700000000000; TouchEnd [];
                       TouchStart [mkTouch 100 100] 1700000000100; TouchEnd []]
                    (run [ZoomInClick; LockClick] drawing))
               = (Fin 1, Fin 200, Fin 400)).
  { session. fields. }
  split; [reflexivity |].
  split.
  { session. repeat (constructor; [reflexivity |]). constructor. }
  split; [exact Hw |].
  split; [exact Hr |].
  rewrite Hw, Hr. intros H. injection H. lra.
Qed.

(** C1, amended: for every sequence of gesture events (touch-start,
    touch-move, touch-end) delivered to a locked overlay in which no
    touch-start completes a double-tap, [(scale, x, y)] after the sequence
    equals [(scale, x, y)] before it, and the overlay is still locked. *)
Theorem locked_gestures_keep_transform (es : list Event) (w : World) :
  forallb is_gesture es = true ->
  locked (overlayState w) = true ->
  no_double_tap es w = true ->
  transform (run es w) = transform w
  /\ locked (overlayState (run es w)) = true.
Proof.
  revert w. induction es as [| e es IH]; intros w Hg Hl Hn.
  - now split.
  - cbn [forallb] in Hg. apply andb_prop in Hg as [He Hg].
    cbn [no_double_tap] in Hn. apply andb_prop in Hn as [Hd Hn].
    destruct (gesture_keeps_lock_and_viewport e w He) as [Hl' _].
    cbn [run].
    destruct (IH (handle e w) Hg) as [IHt IHl]; [congruence | exact Hn |].
    split; [| exact IHl].
    rewrite IHt, (locked_gesture_step e w He Hl).
    destruct e; try reflexivity.
    apply negb_true_iff in Hd. now rewrite Hd.
Qed.

Lemma locked_gestures_keep_transform_witness :
  let w := run [ZoomInClick; LockClick] drawing in
  let es := [TouchStart [mkTouch 100 100] 1700000000000; TouchMove [mkTouch 150 180];
             TouchEnd []; TouchStart [mkTouch 100 100; mkTouch 200 100] 1700000000500;
             TouchMove [mkTouch 50 100; mkTouch 250 100]; TouchEnd []] in
  transform (run es w) = transform w
  /\ locked (overlayState (run es w)) = true.
Proof.
  cbv zeta.
  apply (locked_gestures_keep_transform
           [TouchStart [mkTouch 100 100] 1700000000000; TouchMove [mkTouch 150 180];
            TouchEnd []; TouchStart [mkTouch 100 100; mkTouch 200 100] 1700000000500;
            TouchMove [mkTouch 50 100; mkTouch 250 100]; TouchEnd []]
           (run [ZoomInClick; LockClick] drawing)).
  - reflexivity.
  - session. reflexivity.
  - cbn [no_double_tap]. session. crunch; reflexivity.
Defined.

(** With double-taps allowed, a locked overlay ends either where it was or
    re-centred. *)
Lemma locked_gestures_keep_or_recentre (es : list Event) (w : World) :
  forallb is_gesture es = true ->
  locked (overlayState w) = true ->
  transform (run es w) = transform w \/ transform (run es w) = centered w.
Proof.
  revert w. induction es as [| e es IH]; intros w Hg Hl.
  - now left.
  - cbn [forallb] in Hg. apply andb_prop in Hg as [He Hg].
    destruct (gesture_keeps_lock_and_viewport e w He) as [Hl' Hr].
    cbn [run].
    assert (Hc : centered (handle e w) = centered w)
      by (unfold centered; now rewrite Hr).
    destruct (IH (handle e w) Hg) as [IHt | IHt]; [congruence | |].
    + rewrite IHt, (locked_gesture_step e w He Hl).
      destruct e; try (now left).
      destruct (doubleTapFires touches now w); [now right | now left].
    + right. now rewrite IHt.
Qed.

(** ** Scale clamping *)

(** Reduces the projections of updated states, leaving the number
    operations folded. *)
Ltac proj :=
  cbn -[div mul add sub neg Math_min Math_max or_else Math_hypot ltb
        truthy Math_round to_long between is_finite].

Lemma scale_ok_reset (w : World) :
  scale_ok w -> scale_ok (resetOverlayTransform w).
Proof.
  unfold scale_ok. intros (_ & H2 & H3). repeat split; trivial; simpl; lra.
Qed.

Lemma scale_ok_exposeImage (img : Image) (w : World) :
  scale_ok w -> scale_ok (exposeImage img w).
Proof.
  unfold scale_ok. intros (_ & H2 & H3). repeat split; trivial; simpl; lra.
Qed.

(** The scale the pinch handler computes is never NaN: the guarded distance
    is positive, the recorded distance is finite (possibly zero, which makes
    the quotient infinite), and the recorded scale is positive. *)
Lemma pinch_scale_not_NaN (d p s : R) :
  0 < d -> 0 < s -> mul (div (Fin d) (Fin p)) (Fin s) <> NaN.
Proof.
  intros Hd Hs. unfold div.
  destruct (Req_dec_T p 0).
  - unfold sgn. destruct (Rlt_dec 0 d); [| lra].
    cbn [inf_of mul]. unfold sgn. destruct (Rlt_dec 0 s); [| lra].
    discriminate.
  - discriminate.
Qed.

Lemma scale_ok_handleTouchStart (touches : list Touch) (now : R) (w : World) :
  scale_ok w -> scale_ok (handleTouchStart touches now w).
Proof.
  intros H. unfold handleTouchStart.
  destruct (negb (overlayReady (rendering w))); [exact H |].
  destruct (uiHidden (appState w)); [exact H |].
  destruct touches as [| t0 [| t1 [| t2 ts]]]; try exact H.
  - cbv zeta. case_double_tap; proj;
      destruct (locked (overlayState w));
      first [ exact (scale_ok_reset w H) | exact H ].
  - destruct (locked (overlayState w)); [exact H |].
    rewrite guarded_hypot.
    destruct H as (H1 & H2 & H3). repeat split; trivial.
Qed.

Lemma scale_ok_handleTouchMove (touches : list Touch) (w : World) :
  scale_ok w -> scale_ok (handleTouchMove touches w).
Proof.
  intros H. unfold handleTouchMove.
  destruct (negb (overlayReady (rendering w)) || locked (overlayState w)); [exact H |].
  destruct touches as [| t0 [| t1 [| t2 ts]]]; try exact H.
  destruct H as (H1 & H2 & H3).
  cbv zeta. rewrite guarded_hypot.
  destruct (between_Fin _ _ _ H2) as (s & Hs & Hsb).
  destruct (is_finite_Fin _ H3) as (p & Hp).
  unfold scale_ok. proj. rewrite Hs, Hp.
  split; [| split].
  - apply clamp_between, pinch_scale_not_NaN; [apply fingerDistance_pos | lra].
  - simpl. lra.
  - exact I.
Qed.

Lemma scale_ok_handleTouchEnd (touches : list Touch) (w : World) :
  scale_ok w -> scale_ok (handleTouchEnd touches w).
Proof.
  intros H. destruct touches; [| exact H].
  destruct H as (H1 & H2 & H3). repeat split; trivial.
Qed.

Lemma scale_ok_zoomIn (w : World) : scale_ok w -> scale_ok (zoomIn_click w).
Proof.
  intros H. unfold zoomIn_click.
  destruct (negb (overlayReady (rendering w)) || locked (overlayState w)); [exact H |].
  destruct H as (H1 & H2 & H3).
  destruct (between_Fin _ _ _ H1) as (s & Hs & Hsb).
  unfold scale_ok. proj. rewrite Hs. cbn [mul]. rewrite Math_min_Fin.
  repeat split; trivial.
  - apply Rmin_glb; lra.
  - apply Rmin_l.
Qed.

Lemma scale_ok_zoomOut (w : World) : scale_ok w -> scale_ok (zoomOut_click w).
Proof.
  intros H. unfold zoomOut_click.
  destruct (negb (overlayReady (rendering w)) || locked (overlayState w)); [exact H |].
  destruct H as (H1 & H2 & H3).
  destruct (between_Fin _ _ _ H1) as (s & Hs & Hsb).
  unfold scale_ok. proj. rewrite Hs, div_Fin by lra. cbn [mul]. rewrite Math_max_Fin.
  repeat split; trivial.
  - apply Rmax_l.
  - apply Rmax_lub; lra.
Qed.

(** Every listener keeps the scale invariant. *)
Lemma scale_ok_handle (e : Event) (w : World) :
  scale_ok w -> scale_ok (handle e w).
Proof.
  intros H. destruct e; cbn [handle].
  - now apply scale_ok_handleTouchStart.
  - now apply scale_ok_handleTouchMove.
  - now apply scale_ok_handleTouchEnd.
  - now apply scale_ok_zoomIn.
  - now apply scale_ok_zoomOut.
  - exact H.
  - now apply scale_ok_reset.
  - unfold scale_ok in *. destruct H as (_ & H2 & H3).
    repeat split; trivial; simpl; lra.
  - exact H.
  - unfold canvas_click. now destruct (uiHidden (appState w)).
  - exact H.
  - exact H.
  - exact H.
  - unfold window_resize. cbn [appState with_window].
    destruct (negb (cameraActive (appState w))); [exact H |].
    unfold scale_ok in *. destruct H as (_ & H2 & H3).
    repeat split; trivial; simpl; lra.
  - unfold window_resize. cbn [appState with_window].
    destruct (negb (cameraActive (appState w))); [exact H |].
    unfold scale_ok in *. destruct H as (_ & H2 & H3).
    repeat split; trivial; simpl; lra.
  - unfold startCamera_granted.
    destruct (negb (hasImage (appState w))); [exact H |].
    destruct (cameraActive (appState w)); exact H.
  - unfold handleImageFile_onload.
    destruct (4096 <? Z.max (naturalWidth img) (naturalHeight img))%Z;
      [| now apply scale_ok_exposeImage].
    destruct (negb (image_eqb _ img) && negb (complete _));
      [exact H | now apply scale_ok_exposeImage].
  - now apply scale_ok_exposeImage.
Qed.

Lemma scale_ok_boot (win : Window) : scale_ok (boot win).
Proof.
  unfold scale_ok. repeat split; simpl; lra.
Qed.

(** C3: from a state within the scale bounds (and with a pinch snapshot that
    is one: the recorded scale within the bounds, the recorded distance a
    finite number), after every operation of every sequence - zoom buttons,
    pinch and pan gestures, reset, and every other event of the app -
    [0.1 <= scale <= 8] holds. *)
Theorem scale_stays_clamped (es : list Event) (w : World) :
  scale_ok w ->
  Forall (fun w' => between (1 / 10) 8 (scale (overlayState w'))) (trace es w).
Proof.
  revert w. induction es as [| e es IH]; intros w H; cbn [trace].
  - constructor.
  - pose proof (scale_ok_handle e w H) as H'.
    constructor; [apply H' | now apply IH].
Qed.

Lemma scale_stays_clamped_witness :
  Forall (fun w' => between (1 / 10) 8 (scale (overlayState w')))
         (trace [ImageLoad true photo; CameraGranted; ZoomInClick; ZoomInClick;
                 TouchStart [mkTouch 150 400; mkTouch 250 400] 1700000000000;
                 TouchMove [mkTouch 0 400; mkTouch 4000 400];
                 TouchEnd []; ZoomOutClick; ResetClick]
                (boot phone)).
Proof.
  apply (scale_stays_clamped _ (boot phone)).
  unfold scale_ok, boot. ev. repeat split; lra.
Defined.

(** Every state the app reaches from its boot state is within the bounds. *)
Lemma scale_clamped_from_boot (win : Window) (es : list Event) :
  between (1 / 10) 8 (scale (overlayState (run es (boot win)))).
Proof.
  assert (H : forall es w, scale_ok w -> scale_ok (run es w)).
  { clear es. induction es as [| e es' IH]; intros w Hw; cbn [run]; [exact Hw |].
    apply IH, scale_ok_handle, Hw. }
  apply (H es (boot win)), scale_ok_boot.
Qed.

(** ** Double-tap reset *)

(** The double-tap test on a finite last-tap reference, in real terms. *)
Lemma doubleTapFires_Fin (t : Touch) (now l lx ly : R) (w : World) :
  overlayReady (rendering w) = true ->
  uiHidden (appState w) = false ->
  lastTap w = (Fin l, Fin lx, Fin ly) ->
  doubleTapFires [t] now w = true
  <-> now - l < 300
      /\ (clientX t - lx) * (clientX t - lx) + (clientY t - ly) * (clientY t - ly) < 900.
Proof.
  intros Hr Hu Ht. unfold lastTap in Ht. injection Ht as Hl Hx Hy.
  unfold doubleTapFires. rewrite Hr, Hu, Hl, Hx, Hy.
  cbn [negb andb sub neg add mul].
  rewrite andb_true_iff, !ltb_Fin.
  split; intros [H1 H2]; split; lra.
Qed.

(** A touch-start that is not a double-tap becomes the last-tap reference. *)
Lemma handleTouchStart_records (t : Touch) (now : R) (w : World) :
  overlayReady (rendering w) = true ->
  uiHidden (appState w) = false ->
  doubleTapFires [t] now w = false ->
  let w' := handleTouchStart [t] now w in
  lastTap w' = (Fin now, Fin (clientX t), Fin (clientY t))
  /\ transform w' = transform w
  /\ rendering w' = rendering w
  /\ appState w' = appState w.
Proof.
  intros Hr Hu Hd. cbv zeta.
  split; [| split].
  - unfold handleTouchStart, doubleTapFires in *.
    rewrite Hr, Hu in *. cbn [negb andb] in *. cbv zeta. rewrite Hd.
    proj. now destruct (locked (overlayState w)).
  - now rewrite transform_handleTouchStart, Hd.
  - unfold handleTouchStart, doubleTapFires in *.
    rewrite Hr, Hu in *. cbn [negb andb] in *. cbv zeta. rewrite Hd.
    proj. now destruct (locked (overlayState w)).
Qed.

(** A double-tap re-centres the overlay and clears the last-tap timestamp. *)
Lemma handleTouchStart_double_tap (t : Touch) (now : R) (w : World) :
  doubleTapFires [t] now w = true ->
  let w' := handleTouchStart [t] now w in
  transform w' = centered w
  /\ lastTap w' = (Fin 0, lastTapX (gesture w), lastTapY (gesture w))
  /\ rendering w' = rendering w
  /\ appState w' = appState w.
Proof.
  intros Hd. cbv zeta.
  split; [now rewrite transform_handleTouchStart, Hd |].
  unfold handleTouchStart, doubleTapFires in *.
  destruct (overlayReady (rendering w)); [| discriminate].
  destruct (uiHidden (appState w)); [discriminate |].
  cbn [negb andb] in *. cbv zeta. rewrite Hd.
  proj. now destruct (locked (overlayState w)).
Qed.

(** Moving and lifting fingers leaves the last-tap reference, the viewport
    and the UI flags alone. *)
Lemma move_end_keeps_tap (es : list Event) (w : World) :
  forallb is_move_or_end es = true ->
  lastTap (run es w) = lastTap w
  /\ rendering (run es w) = rendering w
  /\ appState (run es w) = appState w.
Proof.
  revert w. induction es as [| e es IH]; intros w H; [easy |].
  cbn [forallb] in H. apply andb_prop in H as [He H].
  cbn [run]. destruct (IH (handle e w) H) as (I1 & I2 & I3).
  rewrite I1, I2, I3. clear IH I1 I2 I3.
  destruct e; try discriminate; cbn [handle].
  - unfold handleTouchMove.
    destruct (negb (overlayReady (rendering w)) || locked (overlayState w)); [easy |].
    destruct touches as [| t0 [| t1 [| t2 ts]]]; easy.
  - destruct touches; easy.
Qed.

(** C4: with the overlay ready and the UI visible, a single-finger
    touch-start (itself not the second of a double-tap) followed, after the
    finger has moved and lifted, by a second one less than 300 ms later and
    less than 30 px away (squared distance below 900) resets the transform
    to [(1, viewportWidth / 2, viewportHeight / 2)] and clears the last-tap
    timestamp, so that a third tap right after (the clock reading 300 ms or
    more, as [Date.now()] does) does not reset again but becomes the new
    last-tap reference; a second touch-start 300 ms or more after the first
    (500 ms, say) does not reset. *)
Theorem double_tap_resets_once
    (w : World) (t1 t2 t3 : Touch) (now1 now2 now3 : R) (mid1 mid2 : list Event) :
  overlayReady (rendering w) = true ->
  uiHidden (appState w) = false ->
  doubleTapFires [t1] now1 w = false ->
  forallb is_move_or_end mid1 = true ->
  forallb is_move_or_end mid2 = true ->
  now2 - now1 < 300 ->
  (clientX t2 - clientX t1) * (clientX t2 - clientX t1)
  + (clientY t2 - clientY t1) * (clientY t2 - clientY t1) < 900 ->
  300 <= now3 ->
  let w1 := run mid1 (handleTouchStart [t1] now1 w) in
  let w2 := handleTouchStart [t2] now2 w1 in
  let w2' := run mid2 w2 in
  let w3 := handleTouchStart [t3] now3 w2' in
  transform w2 = (Fin 1, div (viewportWidth (rendering w)) (Fin 2),
                         div (viewportHeight (rendering w)) (Fin 2))
  /\ lastTapTime (gesture w2) = Fin 0
  /\ transform w3 = transform w2'
  /\ lastTapTime (gesture w3) = Fin now3
  /\ (forall (t : Touch) (now : R),
        300 <= now - now1 ->
        transform (handleTouchStart [t] now w1) = transform w1).
Proof.
  intros Hr Hu Hd1 Hm1 Hm2 Hdt Hdist Hnow3. cbv zeta.
  destruct (handleTouchStart_records t1 now1 w Hr Hu Hd1) as (T1 & _ & R1 & A1).
  destruct (move_end_keeps_tap mid1 (handleTouchStart [t1] now1 w) Hm1)
    as (T1' & R1' & A1').
  set (w1 := run mid1 (handleTouchStart [t1] now1 w)) in *.
  assert (Hr1 : overlayReady (rendering w1) = true) by now rewrite R1', R1.
  assert (Hu1 : uiHidden (appState w1) = false) by now rewrite A1', A1.
  assert (Ht1 : lastTap w1 = (Fin now1, Fin (clientX t1), Fin (clientY t1)))
    by now rewrite T1'.
  assert (Hd2 : doubleTapFires [t2] now2 w1 = true).
  { apply (doubleTapFires_Fin t2 now2 _ _ _ w1 Hr1 Hu1 Ht1). now split. }
  destruct (handleTouchStart_double_tap t2 now2 w1 Hd2) as (X2 & T2 & R2 & A2).
  set (w2 := handleTouchStart [t2] now2 w1) in *.
  destruct (move_end_keeps_tap mid2 w2 Hm2) as (T2' & R2' & A2').
  set (w2' := run mid2 w2) in *.
  assert (Hr2 : overlayReady (rendering w2') = true) by now rewrite R2', R2.
  assert (Hu2 : uiHidden (appState w2') = false) by now rewrite A2', A2.
  assert (Ht2 : lastTap w2' = (Fin 0, Fin (clientX t1), Fin (clientY t1))).
  { rewrite T2', T2. unfold lastTap in Ht1. now injection Ht1 as _ -> ->. }
  assert (Hd3 : doubleTapFires [t3] now3 w2' = false).
  { apply not_true_is_false. intros F.
    apply (doubleTapFires_Fin t3 now3 _ _ _ w2' Hr2 Hu2 Ht2) in F. lra. }
  destruct (handleTouchStart_records t3 now3 w2' Hr2 Hu2 Hd3) as (T3 & X3 & _ & _).
  repeat split.
  - rewrite X2. unfold centered. now rewrite R1', R1.
  - unfold lastTap in T2. now injection T2.
  - exact X3.
  - unfold lastTap in T3. now injection T3.
  - intros t now Hgap.
    rewrite transform_handleTouchStart.
    replace (doubleTapFires [t] now w1) with false; [reflexivity |].
    symmetry. apply not_true_is_false. intros F.
    apply (doubleTapFires_Fin t now _ _ _ w1 Hr1 Hu1 Ht1) in F. lra.
Qed.

Lemma double_tap_resets_once_witness :
  let w := handle ZoomInClick drawing in
  let tap := mkTouch 100 100 in
  let w1 := run [TouchEnd []] (handleTouchStart [tap] 1700000000000 w) in
  let w2 := handleTouchStart [tap] 1700000000100 w1 in
  let w2' := run [TouchEnd []] w2 in
  let w3 := handleTouchStart [tap] 1700000000150 w2' in
  transform w2 = (Fin 1, div (viewportWidth (rendering w)) (Fin 2),
                         div (viewportHeight (rendering w)) (Fin 2))
  /\ lastTapTime (gesture w2) = Fin 0
  /\ transform w3 = transform w2'
  /\ lastTapTime (gesture w3) = Fin 1700000000150
  /\ (forall (t : Touch) (now : R),
        300 <= now - 1700000000000 ->
        transform (handleTouchStart [t] now w1) = transform w1).
Proof.
  apply (double_tap_resets_once (handle ZoomInClick drawing)
           (mkTouch 100 100) (mkTouch 100 100) (mkTouch 100 100)
           1700000000000 1700000000100 1700000000150 [TouchEnd []] [TouchEnd []]);
    try reflexivity; try (ev; lra).
  crunch; reflexivity.
Defined.

(** ** Pinch zoom *)

(** Two-finger and one-finger moves leave the gesture snapshot, the
    viewport, the UI flags and the lock alone. *)
Lemma touch_moves_keep_session (es : list Event) (w : World) :
  forallb is_touch_move es = true ->
  gesture (run es w) = gesture w
  /\ rendering (run es w) = rendering w
  /\ appState (run es w) = appState w
  /\ locked (overlayState (run es w)) = locked (overlayState w).
Proof.
  revert w. induction es as [| e es IH]; intros w H; [easy |].
  cbn [forallb] in H. apply andb_prop in H as [He H].
  cbn [run]. destruct (IH (handle e w) H) as (I1 & I2 & I3 & I4).
  rewrite I1, I2, I3, I4. clear IH I1 I2 I3 I4.
  destruct e; try discriminate; cbn [handle].
  unfold handleTouchMove.
  destruct (negb (overlayReady (rendering w)) || locked (overlayState w)); [easy |].
  destruct touches as [| t0 [| t1 [| t2 ts]]]; easy.
Qed.

(** What a two-finger touch-move computes from a recorded snapshot. *)
Lemma handleTouchMove_pinch (w : World) (q0 q1 : Touch) (d0 s0 ox oy : R) :
  overlayReady (rendering w) = true ->
  locked (overlayState w) = false ->
  pinchStartDistance (gesture w) = Fin d0 ->
  pinchStartScale (gesture w) = Fin s0 ->
  overlayStartXForPinch (gesture w) = Fin ox ->
  overlayStartYForPinch (gesture w) = Fin oy ->
  d0 <> 0 -> s0 <> 0 ->
  let newScale := pinchScale d0 (fingerDistance q0 q1) s0 in
  let centerX := midpointX q0 q1 in
  let centerY := midpointY q0 q1 in
  transform (handleTouchMove [q0; q1] w)
  = (Fin newScale,
     Fin (centerX - (centerX - ox) / s0 * newScale),
     Fin (centerY - (centerY - oy) / s0 * newScale)).
Proof.
  intros Hr Hl Hd Hs Hx Hy Hd0 Hs0. cbv zeta.
  unfold handleTouchMove, pinchScale, midpointX, midpointY.
  rewrite Hr, Hl, Hd, Hs, Hx, Hy. cbn [negb orb].
  autorewrite with jsnum.
  rewrite (div_Fin _ d0) by assumption. cbn [mul sub neg add].
  rewrite clamp_Fin, !div_Fin by assumption.
  unfold transform. proj. cbn [mul add neg].
  repeat f_equal; lra.
Qed.

Lemma fingerDistance_horizontal (t0 t1 : Touch) :
  clientY t0 = clientY t1 -> clientX t0 < clientX t1 ->
  fingerDistance t0 t1 = clientX t1 - clientX t0.
Proof.
  intros Hy Hx. unfold fingerDistance. rewrite Hy.
  replace ((clientX t1 - clientX t0) * (clientX t1 - clientX t0)
           + (clientY t1 - clientY t1) * (clientY t1 - clientY t1))
    with ((clientX t1 - clientX t0) * (clientX t1 - clientX t0)) by lra.
  rewrite sqrt_square by lra.
  destruct (Req_dec_T _ 0); lra.
Qed.

(** A pinch on an overlay that is ready, visible and unlocked: the
    two-finger touch-start at [p0], [p1], then any moves, then the move to
    [q0], [q1] that is looked at. *)
Section Pinch.

Variables (w : World) (p0 p1 : Touch) (now : R).

Hypothesis Hready : overlayReady (rendering w) = true.
Hypothesis Hvisible : uiHidden (appState w) = false.
Hypothesis Hunlocked : locked (overlayState w) = false.

(** What the two-finger touch-start records. *)
Lemma handleTouchStart_pinch :
  let w1 := handleTouchStart [p0; p1] now w in
  pinchStartDistance (gesture w1) = Fin (fingerDistance p0 p1)
  /\ pinchStartScale (gesture w1) = scale (overlayState w)
  /\ pinchStartCenterX (gesture w1) = Fin (midpointX p0 p1)
  /\ pinchStartCenterY (gesture w1) = Fin (midpointY p0 p1)
  /\ overlayStartXForPinch (gesture w1) = x (overlayState w)
  /\ overlayStartYForPinch (gesture w1) = y (overlayState w)
  /\ overlayState w1 = overlayState w
  /\ rendering w1 = rendering w
  /\ appState w1 = appState w.
Proof.
  cbv zeta. unfold handleTouchStart, midpointX, midpointY.
  rewrite Hready, Hvisible, Hunlocked. cbn [negb].
  autorewrite with jsnum.
  repeat split.
Qed.

Variables (moves : list Event) (q0 q1 : Touch).

Hypothesis Hmoves : forallb is_touch_move moves = true.

(** Where the zero-distance guard works: the recorded distance is
    positive, whatever the two touch points, and stays while the fingers
    move; the distance of the move is positive too, and the quotient
    [d1 / d0] is a finite number. *)
Lemma recorded_pinch_divides_by_nonzero :
  let w1 := run moves (handleTouchStart [p0; p1] now w) in
  pinchStartDistance (gesture w1) = Fin (fingerDistance p0 p1)
  /\ 0 < fingerDistance p0 p1
  /\ 0 < fingerDistance q0 q1
  /\ div (Fin (fingerDistance q0 q1)) (pinchStartDistance (gesture w1))
     = Fin (fingerDistance q0 q1 / fingerDistance p0 p1).
Proof.
  cbv zeta.
  destruct handleTouchStart_pinch as (G1 & _).
  destruct (touch_moves_keep_session moves (handleTouchStart [p0; p1] now w) Hmoves)
    as (G & _).
  pose proof (fingerDistance_pos p0 p1). pose proof (fingerDistance_pos q0 q1).
  rewrite G, G1, div_Fin by lra. repeat split; assumption.
Qed.

Variables (s0 x0 y0 : R).

Hypothesis Htransform : transform w = (Fin s0, Fin x0, Fin y0).
Hypothesis Hscale : s0 <> 0.

(** The placement after the move is computed from the snapshot taken at
    touch-start and from the current fingers only. *)
Lemma pinch_move_values :
  let w1 := run moves (handleTouchStart [p0; p1] now w) in
  let newScale := pinchScale (fingerDistance p0 p1) (fingerDistance q0 q1) s0 in
  let cx := midpointX q0 q1 in
  let cy := midpointY q0 q1 in
  transform (handleTouchMove [q0; q1] w1)
  = (Fin newScale,
     Fin (cx - (cx - x0) / s0 * newScale),
     Fin (cy - (cy - y0) / s0 * newScale)).
Proof.
  cbv zeta.
  pose proof Htransform as Ht.
  unfold transform in Ht. injection Ht as Hs Hx Hy.
  destruct handleTouchStart_pinch as (G1 & G2 & _ & _ & G5 & G6 & O & R1 & A1).
  destruct (touch_moves_keep_session moves (handleTouchStart [p0; p1] now w) Hmoves)
    as (G & R2 & _ & L).
  unfold pinchScale, midpointX, midpointY.
  apply handleTouchMove_pinch.
  - now rewrite R2, R1.
  - now rewrite L, O.
  - now rewrite G, G1.
  - now rewrite G, G2.
  - now rewrite G, G5.
  - now rewrite G, G6.
  - pose proof (fingerDistance_pos p0 p1). lra.
  - exact Hscale.
Qed.

(** What the pinch move computes, for every recorded pinch: the world
    coordinates are taken from the midpoint of the _current_ touches with
    the scale of the touch-start as divisor
    ([worldX = (centerX - overlayStartXForPinch) / pinchStartScale]), and
    the new position is [x = centerX - worldX * newScale] with
    [newScale = clamp(d1 / d0 * s0, 0.1, 8)]; the midpoint recorded at
    touch-start does not enter.  Only while the midpoint is where it was at
    the touch-start ([mx]) is [x'] the position the specification gives. *)
Theorem pinch_anchor_at_current_midpoint :
  let w1 := run moves (handleTouchStart [p0; p1] now w) in
  let newScale := pinchScale (fingerDistance p0 p1) (fingerDistance q0 q1) s0 in
  let cx := midpointX q0 q1 in
  let cy := midpointY q0 q1 in
  let mx := midpointX p0 p1 in
  exists x' y',
    transform (handleTouchMove [q0; q1] w1) = (Fin newScale, Fin x', Fin y')
    /\ x' = cx - ((cx - x0) / s0) * newScale
    /\ y' = cy - ((cy - y0) / s0) * newScale
    /\ 1 / 10 <= newScale <= 8
    /\ (cx - x') / newScale = (cx - x0) / s0
    /\ (cy - y') / newScale = (cy - y0) / s0
    /\ (cx = mx -> x' = spec_pinch_position mx cx x0 s0 newScale).
Proof.
  cbv zeta.
  set (newScale := pinchScale (fingerDistance p0 p1) (fingerDistance q0 q1) s0).
  set (cx := midpointX q0 q1). set (cy := midpointY q0 q1).
  assert (Hns : 1 / 10 <= newScale <= 8).
  { unfold newScale, pinchScale. split; [apply Rmax_l |].
    apply Rmax_lub; [lra | apply Rmin_l]. }
  exists (cx - ((cx - x0) / s0) * newScale), (cy - ((cy - y0) / s0) * newScale).
  split; [exact pinch_move_values |].
  repeat split; try apply Hns.
  - field. lra.
  - field. lra.
  - intros ->. reflexivity.
Qed.

End Pinch.

(** A pinch whose two fingers both move: started with the fingers at
    (150, 400) and (250, 400) - midpoint (200, 400), scale 1, overlay at
    (200, 400) - and moved to (200, 400) and (400, 400), the scale becomes 2
    and [x] becomes 100, where the position computed from the recorded
    midpoint is 300. *)
Lemma pinch_uses_current_midpoint :
  let p0 := mkTouch 150 400 in
  let p1 := mkTouch 250 400 in
  let q0 := mkTouch 200 400 in
  let q1 := mkTouch 400 400 in
  let w1 := handleTouchStart [p0; p1] 1700000000000 drawing in
  let w2 := handleTouchMove [q0; q1] w1 in
  transform drawing = (Fin 1, Fin 200, Fin 400)
  /\ pinchStartCenterX (gesture w1) = Fin 200
  /\ transform w2 = (Fin 2, Fin 100, Fin 400)
  /\ ~ (exists newScale x' y',
          transform w2 = (Fin newScale, Fin x', Fin y')
          /\ x' = spec_pinch_position 200 ((200 + 400) / 2) 200 1 newScale)
  /\ ~ (exists newScale x' y',
          transform w2 = (Fin newScale, Fin x', Fin y')
          /\ (200 - x') / newScale = (200 - 200) / 1).
Proof.
  cbv zeta.
  assert (Hw2 : transform (handleTouchMove [mkTouch 200 400; mkTouch 400 400]
                             (handleTouchStart [mkTouch 150 400; mkTouch 250 400]
                                               1700000000000 drawing))
                = (Fin 2, Fin 100, Fin 400)).
  { pose proof (pinch_move_values drawing (mkTouch 150 400) (mkTouch 250 400)
                  1700000000000 eq_refl eq_refl eq_refl
                  [] (mkTouch 200 400) (mkTouch 400 400) eq_refl
                  1 200 400 eq_refl) as P.
    cbv zeta in P. cbn [run] in P. rewrite P by lra. clear P.
    unfold pinchScale, midpointX, midpointY.
    rewrite !fingerDistance_horizontal by (cbn [clientX clientY]; lra).
    cbn [clientX clientY].
    replace ((400 - 200) / (250 - 150) * 1) with 2 by lra.
    replace (Rmin 8 2) with 2 by (unfold Rmin; destruct (Rle_dec 8 2); lra).
    replace (Rmax (1 / 10) 2) with 2
      by (unfold Rmax; destruct (Rle_dec (1 / 10) 2); lra).
    repeat f_equal; lra. }
  split; [reflexivity |].
  split.
  { destruct (handleTouchStart_pinch drawing (mkTouch 150 400) (mkTouch 250 400)
                1700000000000 eq_refl eq_refl eq_refl)
      as (_ & _ & C & _).
    cbv zeta in C. rewrite C. unfold midpointX. cbn [clientX]. f_equal. lra. }
  split; [exact Hw2 |].
  rewrite Hw2. unfold spec_pinch_position.
  split; intros (ns & x' & y' & E & F); injection E as <- <- <-; lra.
Qed.

Lemma pinch_anchor_at_current_midpoint_witness :
  let p0 := mkTouch 150 400 in
  let p1 := mkTouch 250 400 in
  let q0 := mkTouch 200 400 in
  let q1 := mkTouch 400 400 in
  let w1 := run [TouchMove [mkTouch 100 400; mkTouch 300 400]]
                (handleTouchStart [p0; p1] 1700000000000 drawing) in
  let newScale := pinchScale (fingerDistance p0 p1) (fingerDistance q0 q1) 1 in
  let cx := midpointX q0 q1 in
  let cy := midpointY q0 q1 in
  let mx := midpointX p0 p1 in
  exists x' y',
    transform (handleTouchMove [q0; q1] w1) = (Fin newScale, Fin x', Fin y')
    /\ x' = cx - ((cx - 200) / 1) * newScale
    /\ y' = cy - ((cy - 400) / 1) * newScale
    /\ 1 / 10 <= newScale <= 8
    /\ (cx - x') / newScale = (cx - 200) / 1
    /\ (cy - y') / newScale = (cy - 400) / 1
    /\ (cx = mx -> x' = spec_pinch_position mx cx 200 1 newScale).
Proof.
  apply (pinch_anchor_at_current_midpoint drawing
           (mkTouch 150 400) (mkTouch 250 400) 1700000000000);
    try reflexivity.
  lra.
Defined.

(** C2: the code does not do what the claim says.  The claim takes the
    world coordinates of the anchor from the midpoint recorded at pinch
    start; [handleTouchStart] records that midpoint ([pinchStartCenterX],
    [pinchStartCenterY]), but [handleTouchMove] never reads it and takes the
    world coordinates from the midpoint of the current touches.  Start a
    pinch on the overlay at (200, 400), scale 1, with the fingers at
    (150, 400) and (250, 400), keep the first finger where it is and move
    the second to (350, 400): the recorded midpoint is (200, 400), the scale
    becomes 2 and the code puts [x] at 150, where the claim gives 250.  The
    image point under the finger that did not move was at world coordinate
    -50 and is at 0 afterwards; with the position of the claim it stays at
    -50.  The anchor drifts: the world point under the recorded midpoint
    was [(mx - x0) / s0 = 0]; after the move [(mx - x') / newScale] is 25,
    and the world point under the midpoint of the fingers is 50, where the
    position of the claim keeps it at 0. *)
Theorem pinch_ignores_recorded_midpoint :
  let p0 := mkTouch 150 400 in
  let p1 := mkTouch 250 400 in
  let q0 := mkTouch 150 400 in
  let q1 := mkTouch 350 400 in
  let w1 := handleTouchStart [p0; p1] 1700000000000 drawing in
  let w2 := handleTouchMove [q0; q1] w1 in
  transform drawing = (Fin 1, Fin 200, Fin 400)
  /\ pinchStartCenterX (gesture w1) = Fin 200
  /\ pinchStartCenterY (gesture w1) = Fin 400
  /\ midpointX q0 q1 = 250
  /\ transform w2 = (Fin 2, Fin 150, Fin 400)
  /\ spec_pinch_position 200 (midpointX q0 q1) 200 1 2 = 250
  /\ (exists newScale x' y',
        transform w2 = (Fin newScale, Fin x', Fin y')
        /\ x' <> spec_pinch_position 200 (midpointX q0 q1) 200 1 newScale
        /\ (200 - 200) / 1 = 0
        /\ (200 - x') / newScale = 25
        /\ (midpointX q0 q1 - x') / newScale = 50
        /\ (midpointX q0 q1 - spec_pinch_position 200 (midpointX q0 q1) 200 1 newScale)
           / newScale = 0
        /\ (clientX q0 - 200) / 1 = - 50
        /\ (clientX q0 - x') / newScale = 0
        /\ (clientX q0 - spec_pinch_position 200 (midpointX q0 q1) 200 1 newScale)
           / newScale = - 50).
Proof.
  cbv zeta.
  assert (Hw2 : transform (handleTouchMove [mkTouch 150 400; mkTouch 350 400]
                             (handleTouchStart [mkTouch 150 400; mkTouch 250 400]
                                               1700000000000 drawing))
                = (Fin 2, Fin 150, Fin 400)).
  { pose proof (pinch_move_values drawing (mkTouch 150 400) (mkTouch 250 400)
                  1700000000000 eq_refl eq_refl eq_refl
                  [] (mkTouch 150 400) (mkTouch 350 400) eq_refl
                  1 200 400 eq_refl) as P.
    cbv zeta in P. cbn [run] in P. rewrite P by lra. clear P.
    unfold pinchScale, midpointX, midpointY.
    rewrite !fingerDistance_horizontal by (cbn [clientX clientY]; lra).
    cbn [clientX clientY].
    replace ((350 - 150) / (250 - 150) * 1) with 2 by lra.
    replace (Rmin 8 2) with 2 by (unfold Rmin; destruct (Rle_dec 8 2); lra).
    replace (Rmax (1 / 10) 2) with 2
      by (unfold Rmax; destruct (Rle_dec (1 / 10) 2); lra).
    repeat f_equal; lra. }
  destruct (handleTouchStart_pinch drawing (mkTouch 150 400) (mkTouch 250 400)
              1700000000000 eq_refl eq_refl eq_refl)
    as (_ & _ & CX & CY & _).
  cbv zeta in CX, CY.
  split; [reflexivity |].
  split; [rewrite CX; unfold midpointX; cbn [clientX]; f_equal; lra |].
  split; [rewrite CY; unfold midpointY; cbn [clientY]; f_equal; lra |].
  split; [unfold midpointX; cbn [clientX]; lra |].
  split; [exact Hw2 |].
  split; [unfold spec_pinch_position, midpointX; cbn [clientX]; lra |].
  exists 2, 150, 400.
  split; [exact Hw2 |].
  unfold spec_pinch_position, midpointX; cbn [clientX].
  repeat split; lra.
Qed.

(** ** Image ingestion *)


Lemma Zfloor_IZR (z : Z) : Zfloor (IZR z) = z.
Proof. apply Zfloor_eq. lra. Qed.


(** The size of the offscreen copy of an oversized image. *)
Lemma downscaled_size (completeNow : bool) (img : Image) :
  (maxDim < Z.max (naturalWidth img) (naturalHeight img))%Z ->
  let largest := IZR (Z.max (naturalWidth img) (naturalHeight img)) in
  createDownscaledImageIfNeeded completeNow img
  = mkImage (Zfloor (IZR (naturalWidth img) * (4096 / largest) + 1 / 2))
            (Zfloor (IZR (naturalHeight img) * (4096 / largest) + 1 / 2))
            completeNow true.
Proof.
  intros H. cbv zeta. unfold createDownscaledImageIfNeeded.
  destruct (Z.leb_spec (Z.max (naturalWidth img) (naturalHeight img)) maxDim) as [L | _];
    [lia |].
  assert (0 < IZR (Z.max (naturalWidth img) (naturalHeight img))).
  { apply IZR_lt. unfold maxDim in H. lia. }
  rewrite div_Fin by lra.
  cbn [mul Math_round to_long]. rewrite !Zfloor_IZR.
  reflexivity.
Qed.






(** The 8000x6000 poster is exposed as 4096x3072, the 2000x1000 photo as it
    is. *)
Lemma poster_downscaled :
  createDownscaledImageIfNeeded false poster = mkImage 4096 3072 false true
  /\ createDownscaledImageIfNeeded false photo = photo.
Proof.
  split; [| reflexivity].
  rewrite downscaled_size by reflexivity.
  cbn [naturalWidth naturalHeight poster Z.max Z.compare Pos.compare Pos.compare_cont].
  f_equal; apply Zfloor_eq; lra.
Qed.

(** ** The zero-distance guard of the pinch *)

(** Where the guard does not work: [handleTouchEnd] clears the recorded
    distance to 0,
    and a two-finger move whose touch-start was not recorded divides by that
    0.  The quotient is infinite and the clamp turns it into the scale 8,
    whatever the fingers do. *)
Lemma unrecorded_pinch_divides_by_zero (w : World) (q0 q1 : Touch) (s0 : R) :
  overlayReady (rendering w) = true ->
  locked (overlayState w) = false ->
  pinchStartDistance (gesture w) = Fin 0 ->
  pinchStartScale (gesture w) = Fin s0 ->
  0 < s0 ->
  div (Fin (fingerDistance q0 q1)) (pinchStartDistance (gesture w)) = PosInf
  /\ scale (overlayState (handleTouchMove [q0; q1] w)) = Fin 8.
Proof.
  intros Hr Hl Hd Hs Hs0.
  pose proof (fingerDistance_pos q0 q1) as Hq.
  split.
  - rewrite Hd. now apply div_by_zero_pos.
  - unfold handleTouchMove. rewrite Hr, Hl. cbn [negb orb]. cbv zeta.
    rewrite guarded_hypot, Hd, Hs, div_by_zero_pos by assumption.
    proj. unfold mul, sgn. destruct (Rlt_dec 0 s0); [| lra].
    cbn [inf_of Math_min ltb]. rewrite Math_max_Fin. f_equal.
    unfold Rmax. destruct (Rle_dec (1 / 10) 8); lra.
Qed.

(** C7 does not hold of the code: one finger is on the canvas, a second one
    comes down outside it (no touch-start reaches the canvas for it), and
    the next touch-move of the canvas lists two touches.  The recorded
    distance is still the 0 of the last touch-end, [d1 / d0] is a division
    by zero, and the scale jumps from 1 to 8. *)
Theorem pinch_move_without_recorded_start :
  let w := handleTouchStart [mkTouch 200 400] 1700000000000 drawing in
  let q0 := mkTouch 210 400 in
  let q1 := mkTouch 300 700 in
  overlayReady (rendering w) = true
  /\ locked (overlayState w) = false
  /\ scale (overlayState w) = Fin 1
  /\ pinchStartDistance (gesture w) = Fin 0
  /\ div (Fin (fingerDistance q0 q1)) (pinchStartDistance (gesture w)) = PosInf
  /\ scale (overlayState (handleTouchMove [q0; q1] w)) = Fin 8.
Proof.
  cbv zeta.
  assert (E : exists w, handleTouchStart [mkTouch 200 400] 1700000000000 drawing = w
                        /\ overlayReady (rendering w) = true
                        /\ locked (overlayState w) = false
                        /\ scale (overlayState w) = Fin 1
                        /\ pinchStartDistance (gesture w) = Fin 0
                        /\ pinchStartScale (gesture w) = Fin 1).
  { eexists. split; [reflexivity |]. crunch; repeat split. }
  destruct E as (w & -> & Hr & Hl & Hs & Hd & Hp).
  destruct (unrecorded_pinch_divides_by_zero w (mkTouch 210 400) (mkTouch 300 700) 1
              Hr Hl Hd Hp) as [D S]; [lra |].
  repeat split; assumption.
Qed.

(** The same happens when both fingers come down in one touch-start while
    the UI is hidden: the handler only restores the UI. *)
Lemma pinch_after_hidden_ui_start :
  let w := run [HideUiClick;
                TouchStart [mkTouch 150 400; mkTouch 250 400] 1700000000000] drawing in
  uiHidden (appState w) = false
  /\ pinchStartDistance (gesture w) = Fin 0
  /\ scale (overlayState
              (handle (TouchMove [mkTouch 100 400; mkTouch 300 400]) w)) = Fin 8.
Proof.
  cbv zeta.
  assert (E : exists w, run [HideUiClick;
                             TouchStart [mkTouch 150 400; mkTouch 250 400] 1700000000000]
                            drawing = w
                        /\ overlayReady (rendering w) = true
                        /\ locked (overlayState w) = false
                        /\ uiHidden (appState w) = false
                        /\ pinchStartDistance (gesture w) = Fin 0
                        /\ pinchStartScale (gesture w) = Fin 1).
  { eexists. split; [reflexivity |]. crunch; repeat split. }
  destruct E as (w & -> & Hr & Hl & Hu & Hd & Hp).
  destruct (unrecorded_pinch_divides_by_zero w (mkTouch 100 400) (mkTouch 300 400) 1
              Hr Hl Hd Hp) as [_ S]; [lra |].
  repeat split; assumption.
Qed.

(** ** The scenario of the specification

    A 2000x1000 picture on a 400x800 viewport sits at scale 1 in (200, 400);
    a pinch from distance 100 to distance 200 around the midpoint (200, 400)
    doubles the scale and leaves the centre where it is; once locked, the
    zoom button changes nothing. *)
Lemma scenario :
  let pinched :=
    handleTouchMove [mkTouch 100 400; mkTouch 300 400]
      (handleTouchStart [mkTouch 150 400; mkTouch 250 400] 1700000000000 drawing) in
  transform drawing = (Fin 1, Fin 200, Fin 400)
  /\ transform pinched = (Fin 2, Fin 200, Fin 400)
  /\ zoomIn_click (toggleLock pinched) = toggleLock pinched.
Proof.
  cbv zeta. split; [reflexivity |]. split.
  - pose proof (pinch_move_values drawing (mkTouch 150 400) (mkTouch 250 400)
                  1700000000000 eq_refl eq_refl eq_refl
                  [] (mkTouch 100 400) (mkTouch 300 400) eq_refl
                  1 200 400 eq_refl) as P.
    cbv zeta in P. cbn [run] in P. rewrite P by lra. clear P.
    unfold pinchScale, midpointX, midpointY.
    rewrite !fingerDistance_horizontal by (cbn [clientX clientY]; lra).
    cbn [clientX clientY].
    replace ((300 - 100) / (250 - 150) * 1) with 2 by lra.
    replace (Rmin 8 2) with 2 by (unfold Rmin; destruct (Rle_dec 8 2); lra).
    replace (Rmax (1 / 10) 2) with 2
      by (unfold Rmax; destruct (Rle_dec (1 / 10) 2); lra).
    repeat f_equal; lra.
  - apply zoom_buttons_gated. right.
    destruct (gesture_keeps_lock_and_viewport
                (TouchMove [mkTouch 100 400; mkTouch 300 400])
                (handleTouchStart [mkTouch 150 400; mkTouch 250 400] 1700000000000 drawing)
                eq_refl) as [L _].
    destruct (gesture_keeps_lock_and_viewport
                (TouchStart [mkTouch 150 400; mkTouch 250 400] 1700000000000) drawing
                eq_refl) as [L' _].
    cbn [handle] in L, L'.
    unfold toggleLock. cbn [set_locked with_overlayState overlayState locked].
    rewrite L, L'. reflexivity.
Qed.

(** * Further properties of the code *)

(** ** Invariants of the reachable states *)

Lemma is_finite_add (a b : number) : is_finite a -> is_finite b -> is_finite (add a b).
Proof. destruct a, b; simpl; tauto. Qed.

Lemma is_finite_sub (a b : number) : is_finite a -> is_finite b -> is_finite (sub a b).
Proof. destruct a, b; simpl; tauto. Qed.

Lemma is_finite_mul (a b : number) : is_finite a -> is_finite b -> is_finite (mul a b).
Proof. destruct a, b; simpl; tauto. Qed.

Lemma is_finite_div (a : number) (s : R) :
  is_finite a -> s <> 0 -> is_finite (div a (Fin s)).
Proof.
  destruct a; simpl; try tauto. intros _ H. now destruct (Req_dec_T s 0).
Qed.

Lemma between_finite (lo hi : R) (a : number) : between lo hi a -> is_finite a.
Proof. destruct a; simpl; tauto. Qed.

(** Splits a listener into its branches. *)
Ltac branches :=
  cbv zeta;
  repeat match goal with
    | |- context [match ?t with [] => _ | _ :: _ => _ end] => destruct t
    | |- context [if ?c then _ else _] => destruct c eqn:?
    end.

(** Puts the outcome of the tests back where reduction shows them again. *)
Ltac retest :=
  repeat match goal with
    | H : ?a = _ |- context [?a] => rewrite H
    end.

(** No listener assigns [rotation], and nothing but [resetFilters] assigns
    the grayscale and invert flags. *)
Lemma handle_keeps_rotation_fx (e : Event) (w : World) :
  rotation (overlayState (handle e w)) = rotation (overlayState w)
  /\ (fxState (handle e w) = fxState w \/ fxState (handle e w) = defaultFx).
Proof.
  destruct e; cbn [handle];
    unfold handleTouchStart, handleTouchMove, handleTouchEnd, zoomIn_click,
      zoomOut_click, canvas_click, window_resize, startCamera_granted,
      handleImageFile_onload;
    branches; split; try reflexivity; try (left; reflexivity); right; reflexivity.
Qed.

Lemma handle_keeps_image_flags (e : Event) (w : World) :
  image_flags_agree w -> image_flags_agree (handle e w).
Proof.
  unfold image_flags_agree.
  destruct e; cbn [handle];
    unfold handleTouchStart, handleTouchMove, handleTouchEnd, zoomIn_click,
      zoomOut_click, canvas_click, window_resize, startCamera_granted,
      handleImageFile_onload;
    branches; cbn -[div mul add sub] in *; retest; intuition congruence.
Qed.

Lemma is_finite_Fin_I (r : R) : is_finite (Fin r).
Proof. exact I. Qed.

Create HintDb finite.
#[local] Hint Resolve is_finite_Fin_I is_finite_add is_finite_sub is_finite_mul is_finite_div
  between_finite : finite.

Lemma two_nonzero : 2 <> 0.
Proof. lra. Qed.

#[local] Hint Resolve two_nonzero : finite.

Lemma finite_state_reset (w : World) :
  finite_state w -> finite_state (resetOverlayTransform w).
Proof.
  unfold finite_state. intros (Hx & Hy & Hw & Hh & H).
  cbn -[div]. repeat split; auto with finite; tauto.
Qed.

Lemma finite_state_resizeCanvas (w : World) :
  finite_state w -> finite_state (resizeCanvas w).
Proof.
  unfold finite_state. intros (Hx & Hy & Hw & Hh & H).
  cbn -[div mul to_long or_else]. repeat split; auto; tauto.
Qed.

Lemma finite_state_exposeImage (img : Image) (w : World) :
  finite_state w -> finite_state (exposeImage img w).
Proof.
  unfold finite_state. intros (Hx & Hy & Hw & Hh & H).
  cbn -[div mul to_long or_else]. rewrite !half_Fin. repeat split; simpl; tauto.
Qed.

Lemma finite_state_handleTouchStart (touches : list Touch) (now : R) (w : World) :
  finite_state w -> finite_state (handleTouchStart touches now w).
Proof.
  intros H. unfold handleTouchStart.
  destruct (negb (overlayReady (rendering w))); [exact H |].
  destruct (uiHidden (appState w)); [exact H |].
  destruct touches as [| t0 [| t1 [| t2 ts]]]; try exact H.
  - cbv zeta. pose proof (finite_state_reset w H) as Hr.
    unfold finite_state in *.
    destruct H as (Hx & Hy & Hw & Hh & H5 & H6 & H7 & H8 & H9 & H10).
    destruct Hr as (Rx & Ry & _).
    case_double_tap; cbn -[div]; destruct (locked (overlayState w));
      cbn -[div]; repeat split; assumption.
  - unfold finite_state in *.
    destruct H as (Hx & Hy & Hw & Hh & H5 & H6 & H7 & H8 & H9 & H10).
    destruct (locked (overlayState w)); cbn -[div or_else Math_hypot];
      repeat split; assumption.
Qed.

Lemma finite_state_handleTouchMove (touches : list Touch) (w : World) :
  scale_ok w -> finite_state w -> finite_state (handleTouchMove touches w).
Proof.
  intros Hs H.
  pose proof (scale_ok_handleTouchMove touches w Hs) as (Hn & _).
  apply between_finite in Hn. revert Hn.
  unfold handleTouchMove.
  destruct (negb (overlayReady (rendering w)) || locked (overlayState w)); [easy |].
  destruct touches as [| t0 [| t1 [| t2 ts]]]; try easy.
  - intros _. unfold finite_state in *.
    destruct H as (Hx & Hy & Hw & Hh & H5 & H6 & H7 & H8 & H9 & H10).
    cbn -[add sub]. repeat split; auto with finite.
  - destruct Hs as (_ & Hp & _).
    destruct (between_Fin _ _ _ Hp) as (s & Es & Hsb).
    assert (s <> 0) by lra.
    unfold finite_state in *.
    destruct H as (Hx & Hy & Hw & Hh & H5 & H6 & H7 & H8 & H9 & H10).
    cbv zeta. rewrite !midpoint_Fin, Es.
    cbn -[add sub mul div Math_max Math_min or_else Math_hypot].
    intros Hn. repeat split; auto 7 with finite.
Qed.

Lemma finite_state_handle (e : Event) (w : World) :
  scale_ok w -> finite_state w -> finite_state (handle e w).
Proof.
  intros Hs H. destruct e; cbn [handle]; try exact H.
  - now apply finite_state_handleTouchStart.
  - now apply finite_state_handleTouchMove.
  - destruct touches; exact H.
  - unfold zoomIn_click.
    destruct (negb (overlayReady (rendering w)) || locked (overlayState w)); exact H.
  - unfold zoomOut_click.
    destruct (negb (overlayReady (rendering w)) || locked (overlayState w)); exact H.
  - now apply finite_state_reset.
  - unfold changeImage_click, enterLandingMode.
    unfold finite_state in *.
    destruct H as (Hx & Hy & Hw & Hh & H5 & H6 & H7 & H8 & H9 & H10).
    cbn -[div]. repeat split; auto with finite.
  - unfold canvas_click. destruct (uiHidden (appState w)); exact H.
  - unfold window_resize. cbn [appState with_window].
    destruct (negb (cameraActive (appState w))); [exact H |].
    apply finite_state_reset, finite_state_resizeCanvas. exact H.
  - unfold window_resize. cbn [appState with_window].
    destruct (negb (cameraActive (appState w))); [exact H |].
    apply finite_state_reset, finite_state_resizeCanvas. exact H.
  - unfold startCamera_granted.
    destruct (negb (hasImage (appState w))); [exact H |].
    destruct (cameraActive (appState w)); [exact H |].
    apply finite_state_resizeCanvas. exact H.
  - unfold handleImageFile_onload.
    destruct (4096 <? Z.max (naturalWidth img) (naturalHeight img))%Z;
      [| now apply finite_state_exposeImage].
    destruct (negb (image_eqb _ img) && negb (complete _));
      [exact H | now apply finite_state_exposeImage].
  - now apply finite_state_exposeImage.
Qed.

Lemma state_ok_handle (e : Event) (w : World) : state_ok w -> state_ok (handle e w).
Proof.
  intros (Hs & Hf & Hr & Hi & Hx).
  destruct (handle_keeps_rotation_fx e w) as [Er [Ex | Ex]];
    (split; [now apply scale_ok_handle |];
     split; [now apply finite_state_handle |];
     split; [congruence |];
     split; [now apply handle_keeps_image_flags | congruence]).
Qed.

Lemma state_ok_boot (win : Window) : state_ok (boot win).
Proof.
  split; [apply scale_ok_boot |].
  split; [| repeat split].
  unfold finite_state, boot. cbn -[div or_else]. rewrite half_Fin.
  repeat split.
Qed.

Lemma state_ok_run (es : list Event) (w : World) : state_ok w -> state_ok (run es w).
Proof.
  revert w. induction es as [| e es IH]; intros w H; cbn [run]; [exact H |].
  apply IH, state_ok_handle, H.
Qed.

(** X2: in every state the app reaches, [overlayReady], [appState.hasImage]
    and the presence of [overlayImage] agree: the three tests at the head of
    [drawOverlay] (and the [overlayReady] test of the gesture and zoom
    listeners) stand for one fact. *)
Theorem image_flags_always_agree (win : Window) (es : list Event) :
  let w := run es (boot win) in
  hasImage (appState w) = overlayReady (rendering w)
  /\ (overlayReady (rendering w) = true <-> overlayImage (rendering w) <> None).
Proof.
  cbv zeta.
  destruct (state_ok_run es (boot win) (state_ok_boot win))
    as (_ & _ & _ & (H1 & H2) & _).
  split; [exact H1 |].
  rewrite H2. destruct (overlayImage (rendering (run es (boot win)))); split;
    congruence.
Qed.

(** X3: no listener ever sets the fields the app keeps in reserve: the
    rotation stays 0 and the grayscale and invert flags stay off, so the
    filter string is always just the brightness and the contrast. *)
Theorem reserved_fields_never_set (win : Window) (es : list Event) :
  let w := run es (boot win) in
  rotation (overlayState w) = Fin 0
  /\ grayscale (fxState w) = false
  /\ invert (fxState w) = false
  /\ getFilterString w = [BrightnessPart (brightness (filterState w));
                          ContrastPart (contrast (filterState w))].
Proof.
  cbv zeta.
  destruct (state_ok_run es (boot win) (state_ok_boot win))
    as (_ & _ & Hr & _ & Hx).
  unfold getFilterString. rewrite Hx. repeat split. exact Hr.
Qed.


(** ** Pan *)

(** What a one-finger touch-start records on an overlay that takes
    gestures. *)
Lemma handleTouchStart_pan (w : World) (p : Touch) (now : R) :
  overlayReady (rendering w) = true ->
  uiHidden (appState w) = false ->
  locked (overlayState w) = false ->
  let w1 := handleTouchStart [p] now w in
  panStartX (gesture w1) = Fin (clientX p)
  /\ panStartY (gesture w1) = Fin (clientY p)
  /\ overlayStartX (gesture w1) = x (overlayState w1)
  /\ overlayStartY (gesture w1) = y (overlayState w1)
  /\ overlayReady (rendering w1) = true
  /\ locked (overlayState w1) = false.
Proof.
  intros Hr Hu Hl. cbv zeta. unfold handleTouchStart.
  rewrite Hr, Hu. cbn [negb]. cbv zeta.
  case_double_tap; cbn -[div]; rewrite Hl; cbn -[div]; repeat split; assumption.
Qed.

(** X5: a one-finger drag moves the overlay by exactly the displacement of
    the finger since its touch-start, whatever path the finger took in
    between; back at its starting point the overlay is back where the
    touch-start left it.  The scale is not touched. *)
Theorem pan_follows_finger
    (w : World) (p q : Touch) (now x1 y1 : R) (moves : list Event) :
  overlayReady (rendering w) = true ->
  uiHidden (appState w) = false ->
  locked (overlayState w) = false ->
  forallb is_touch_move moves = true ->
  let w1 := handleTouchStart [p] now w in
  x (overlayState w1) = Fin x1 ->
  y (overlayState w1) = Fin y1 ->
  let w2 := handleTouchMove [q] (run moves w1) in
  x (overlayState w2) = Fin (x1 + (clientX q - clientX p))
  /\ y (overlayState w2) = Fin (y1 + (clientY q - clientY p))
  /\ scale (overlayState w2) = scale (overlayState (run moves w1))
  /\ (q = p -> x (overlayState w2) = Fin x1 /\ y (overlayState w2) = Fin y1).
Proof.
  intros Hr Hu Hl Hm. cbv zeta. intros Hx Hy.
  destruct (handleTouchStart_pan w p now Hr Hu Hl) as (P1 & P2 & P3 & P4 & R1 & L1).
  cbv zeta in *.
  destruct (touch_moves_keep_session moves (handleTouchStart [p] now w) Hm)
    as (G & R2 & _ & L2).
  unfold handleTouchMove.
  rewrite R2, L2, R1, L1. cbn [negb orb]. cbv zeta. proj.
  rewrite G, P1, P2, P3, P4, Hx, Hy. cbn [sub neg add].
  assert (Ex : x1 + (clientX q + - clientX p) = x1 + (clientX q - clientX p)) by lra.
  assert (Ey : y1 + (clientY q + - clientY p) = y1 + (clientY q - clientY p)) by lra.
  rewrite Ex, Ey. do 3 (split; [reflexivity |]).
  intros ->. split; f_equal; lra.
Qed.

Lemma pan_follows_finger_witness :
  let w1 := handleTouchStart [mkTouch 100 100] 1700000000000 drawing in
  let w2 := handleTouchMove [mkTouch 160 90]
              (run [TouchMove [mkTouch 120 300]; TouchMove [mkTouch 10 20]] w1) in
  x (overlayState w2) = Fin (200 + (160 - 100))
  /\ y (overlayState w2) = Fin (400 + (90 - 100))
  /\ scale (overlayState w2)
     = scale (overlayState
                (run [TouchMove [mkTouch 120 300]; TouchMove [mkTouch 10 20]] w1))
  /\ (mkTouch 160 90 = mkTouch 100 100 ->
      x (overlayState w2) = Fin 200 /\ y (overlayState w2) = Fin 400).
Proof.
  apply (pan_follows_finger drawing (mkTouch 100 100) (mkTouch 160 90)
           1700000000000 200 400
           [TouchMove [mkTouch 120 300]; TouchMove [mkTouch 10 20]]);
    try reflexivity; crunch; reflexivity.
Defined.

(** ** Lock *)

(** X9: a locked overlay is inert to everything but an explicit reset: the
    zoom buttons and every touch-move leave the whole state as it is, a
    touch-start records no pan or pinch origin, and pressing the lock button
    twice gives back the state before. *)
Theorem locked_overlay_is_inert (w : World) :
  locked (overlayState w) = true ->
  zoomIn_click w = w
  /\ zoomOut_click w = w
  /\ (forall touches, handleTouchMove touches w = w)
  /\ (forall touches now,
        gestureOrigins (handleTouchStart touches now w) = gestureOrigins w
        /\ locked (overlayState (handleTouchStart touches now w)) = true)
  /\ toggleLock (toggleLock w) = w.
Proof.
  intros Hl. repeat split.
  - unfold zoomIn_click. rewrite Hl. now destruct (overlayReady (rendering w)).
  - unfold zoomOut_click. rewrite Hl. now destruct (overlayReady (rendering w)).
  - intros touches. now apply handleTouchMove_locked.
  - unfold handleTouchStart.
    destruct (negb (overlayReady (rendering w))); [reflexivity |].
    destruct (uiHidden (appState w)); [reflexivity |].
    destruct touches as [| t0 [| t1 [| t2 ts]]]; try reflexivity.
    + cbv zeta. case_double_tap; cbn -[div]; rewrite Hl; reflexivity.
    + now rewrite Hl.
  - destruct (gesture_keeps_lock_and_viewport (TouchStart touches now) w eq_refl)
      as [L _].
    cbn [handle] in L. now rewrite L.
  - destruct w as [win a o f fx r g]. destruct o as [s ox oy ro l].
    unfold toggleLock. cbn. now rewrite negb_involutive.
Qed.

Lemma locked_overlay_is_inert_witness :
  let w := toggleLock drawing in
  zoomIn_click w = w
  /\ zoomOut_click w = w
  /\ (forall touches, handleTouchMove touches w = w)
  /\ (forall touches now,
        gestureOrigins (handleTouchStart touches now w) = gestureOrigins w
        /\ locked (overlayState (handleTouchStart touches now w)) = true)
  /\ toggleLock (toggleLock w) = w.
Proof.
  apply (locked_overlay_is_inert (toggleLock drawing)). reflexivity.
Defined.

(** ** Canvas sizing *)

(** X10: [resizeCanvas] takes the viewport from the window and never leaves
    a zero device pixel ratio behind (a ratio of 0 is read as 1); it touches
    neither the overlay nor the application, filter or gesture state nor the
    image, and doing it again changes nothing. *)
Theorem resizeCanvas_maps_viewport (w : World) :
  let w' := resizeCanvas w in
  let ratio := if Req_dec_T (devicePixelRatio (window w)) 0
               then 1 else devicePixelRatio (window w) in
  ratio <> 0
  /\ dpr (rendering w') = Fin ratio
  /\ viewportWidth (rendering w') = Fin (innerWidth (window w))
  /\ viewportHeight (rendering w') = Fin (innerHeight (window w))
  /\ overlayState w' = overlayState w
  /\ appState w' = appState w
  /\ filterState w' = filterState w
  /\ fxState w' = fxState w
  /\ gesture w' = gesture w
  /\ overlayImage (rendering w') = overlayImage (rendering w)
  /\ overlayReady (rendering w') = overlayReady (rendering w)
  /\ resizeCanvas w' = w'.
Proof.
  cbv zeta.
  unfold resizeCanvas, updateViewportSize, or_else, truthy.
  destruct (Req_dec_T (devicePixelRatio (window w)) 0) as [E | N];
    cbn -[Zfloor IZR Rmult]; (split; [lra || exact N |]);
    repeat split.
  - unfold or_else, truthy. cbn -[Zfloor IZR Rmult].
    destruct (Req_dec_T (devicePixelRatio (window w)) 0); [| contradiction].
    reflexivity.
  - unfold or_else, truthy. cbn -[Zfloor IZR Rmult].
    destruct (Req_dec_T (devicePixelRatio (window w)) 0); [contradiction |].
    reflexivity.
Qed.

(** ** Starting the camera *)

(** X11: [startCamera] changes the state only when an image is loaded, the
    camera is not yet active and the stream is granted; it then marks the
    camera active and re-reads the viewport.  Without an image, without
    camera support or on a refusal the state stays as it is and a message
    says why.  In no case does it move the overlay. *)
Theorem startCamera_needs_image_and_grant (outcome : CameraOutcome) (w : World) :
  let w' := fst (startCamera outcome w) in
  let message := snd (startCamera outcome w) in
  (if hasImage (appState w) && negb (cameraActive (appState w))
   then match outcome with
        | Granted => w' = resizeCanvas (set_cameraActive true w)
                     /\ cameraActive (appState w') = true
                     /\ message = None
        | NoMediaDevices => w' = w /\ message <> None
        | Rejected => w' = w /\ message <> None
        end
   else w' = w
        /\ (hasImage (appState w) = false -> message <> None))
  /\ overlayState w' = overlayState w
  /\ hasImage (appState w') = hasImage (appState w).
Proof.
  cbv zeta. unfold startCamera.
  destruct (hasImage (appState w)) eqn:Hi, (cameraActive (appState w)) eqn:Hc,
    outcome; cbn; repeat split; try assumption; congruence.
Qed.

(** ** Render loop *)

Lemma loop_ok_step (e : LoopEvent) (l : Loop) : loop_ok l -> loop_ok (loopStep e l).
Proof.
  unfold loop_ok. intros H. destruct l as [id ws nh fr]. cbn in H. subst ws.
  destruct e, id as [id |]; cbn; try reflexivity.
  now rewrite Nat.eqb_refl.
Qed.

Lemma loop_ok_run (es : list LoopEvent) (l : Loop) : loop_ok l -> loop_ok (loopRun es l).
Proof.
  revert l. induction es as [| e es IH]; intros l H; cbn [loopRun]; [exact H |].
  apply IH, loop_ok_step, H.
Qed.

Lemma frames_running (n : nat) (l : Loop) :
  loop_ok l -> animationFrameId l <> None ->
  frames (loopRun (repeat Frame n) l) = (frames l + n)%nat.
Proof.
  revert l. induction n as [| n IH]; intros l H Hrun; cbn [repeat loopRun].
  - lia.
  - rewrite IH.
    + destruct l as [[id |] ws nh fr]; [| contradiction].
      unfold loop_ok in H. cbn in H. subst ws. cbn. lia.
    + now apply loop_ok_step.
    + destruct l as [[id |] ws nh fr]; [| contradiction].
      unfold loop_ok in H. cbn in H. subst ws. cbn. discriminate.
Qed.

Lemma frames_stopped (n : nat) (l : Loop) :
  loop_ok l -> animationFrameId l = None ->
  loopRun (repeat Frame n) l = l.
Proof.
  intros H Hstop. induction n as [| n IH]; cbn [repeat loopRun]; [reflexivity |].
  destruct l as [id ws nh fr]. cbn in Hstop. subst id.
  unfold loop_ok in H. cbn in H. subst ws. exact IH.
Qed.

(** Every listener and every frame asks for at most one new handle. *)
Lemma nextHandle_step (e : LoopEvent) (l : Loop) :
  loop_ok l -> (nextHandle (loopStep e l) <= S (nextHandle l))%nat.
Proof.
  unfold loop_ok. intros H. destruct l as [id ws nh fr]. cbn in H. subst ws.
  destruct e, id as [id |]; cbn; lia.
Qed.

Lemma nextHandle_run (es : list LoopEvent) (l : Loop) :
  loop_ok l -> (nextHandle (loopRun es l) <= nextHandle l + length es)%nat.
Proof.
  revert l. induction es as [| e es IH]; intros l H; cbn [loopRun length]; [lia |].
  pose proof (nextHandle_step e l H) as Hs.
  pose proof (IH (loopStep e l) (loop_ok_step e l H)) as Hr.
  lia.
Qed.

(** X12: while the browser's handles stay within an unsigned long (fewer
    than 4294967295 start, stop and frame events since the page loaded),
    however often the loop is started, stopped and run, at most one
    [renderLoop] callback waits for the next frame, and it is the one
    [animationFrameId] holds: the loop never schedules itself twice, and
    starting a loop that runs changes nothing. *)
Theorem render_loop_schedules_once (es : list LoopEvent) :
  (Z.of_nat (length es) < 4294967295)%Z ->
  let l := loopRun es idleLoop in
  (Z.of_nat (nextHandle l) <= 4294967295)%Z
  /\ waiting l = match animationFrameId l with Some id => [id] | None => [] end
  /\ (animationFrameId l <> None -> startRenderLoop l = l).
Proof.
  intros Hlen. cbv zeta. split; [| split].
  - pose proof (nextHandle_run es idleLoop eq_refl) as H.
    cbn [nextHandle idleLoop] in H. lia.
  - apply (loop_ok_run es idleLoop). reflexivity.
  - unfold startRenderLoop.
    destruct (animationFrameId (loopRun es idleLoop)); [reflexivity | congruence].
Qed.

Lemma render_loop_schedules_once_witness :
  let l := loopRun [StartLoop; Frame; StartLoop; Frame; StopLoop; Frame; StartLoop]
                   idleLoop in
  (Z.of_nat (nextHandle l) <= 4294967295)%Z
  /\ waiting l = match animationFrameId l with Some id => [id] | None => [] end
  /\ (animationFrameId l <> None -> startRenderLoop l = l).
Proof.
  apply (render_loop_schedules_once
           [StartLoop; Frame; StartLoop; Frame; StopLoop; Frame; StartLoop]).
  cbn [length]. lia.
Defined.

(** X13: a started loop paints exactly once per frame, for as long as it is
    not stopped. *)
Theorem running_loop_paints_every_frame (es : list LoopEvent) (n : nat) :
  let l := startRenderLoop (loopRun es idleLoop) in
  frames (loopRun (repeat Frame n) l) = (frames l + n)%nat
  /\ animationFrameId (loopRun (repeat Frame n) l) <> None.
Proof.
  cbv zeta.
  pose proof (loop_ok_run es idleLoop eq_refl) as H.
  apply (loop_ok_step StartLoop) in H. cbn [loopStep] in H.
  assert (Hrun : animationFrameId (startRenderLoop (loopRun es idleLoop)) <> None).
  { unfold startRenderLoop.
    destruct (animationFrameId (loopRun es idleLoop)) eqn:E; [congruence |].
    cbn. discriminate. }
  split; [now apply frames_running |].
  set (l := startRenderLoop (loopRun es idleLoop)) in *. clearbody l.
  revert l H Hrun. induction n as [| n IH]; intros l H Hrun; cbn [repeat loopRun].
  - exact Hrun.
  - apply IH; [now apply loop_ok_step |].
    destruct l as [[id |] ws nh fr]; [| contradiction].
    unfold loop_ok in H. cbn in H. subst ws. cbn. discriminate.
Qed.

(** X14: [stopRenderLoop] cancels the callback that waits: after it no frame
    paints any more, and nothing is left queued. *)
Theorem stopped_loop_paints_nothing (es : list LoopEvent) (n : nat) :
  let l := stopRenderLoop (loopRun es idleLoop) in
  waiting l = []
  /\ animationFrameId l = None
  /\ loopRun (repeat Frame n) l = l.
Proof.
  cbv zeta.
  pose proof (loop_ok_run es idleLoop eq_refl) as H.
  pose proof (loop_ok_step StopLoop _ H) as Hs. cbn [loopStep] in Hs.
  assert (Hid : animationFrameId (stopRenderLoop (loopRun es idleLoop)) = None).
  { unfold stopRenderLoop.
    destruct (animationFrameId (loopRun es idleLoop)) eqn:E; [reflexivity | exact E]. }
  split; [| split].
  - unfold loop_ok in Hs. now rewrite Hid in Hs.
  - exact Hid.
  - now apply frames_stopped.
Qed.

(** ** Service worker *)

Lemma caches_delete_filter (name : String.string) (cs : CacheStorage) :
  caches_delete name cs = filter (fun e => negb (String.eqb (fst e) name)) cs.
Proof.
  induction cs as [| [n c] cs IH]; [reflexivity |].
  cbn [caches_delete filter fst]. destruct (String.eqb n name); cbn [negb]; now rewrite IH.
Qed.

Lemma delete_all_filter (keys : list String.string) (cs : CacheStorage) :
  fold_left (fun cs key => caches_delete key cs) keys cs
  = filter (fun e => negb (existsb (String.eqb (fst e)) keys)) cs.
Proof.
  revert cs. induction keys as [| k keys IH]; intros cs; cbn [fold_left existsb].
  - symmetry. induction cs as [| e cs IHcs]; [reflexivity |]. cbn. now f_equal.
  - rewrite IH, caches_delete_filter.
    induction cs as [| e cs IHcs]; [reflexivity |].
    cbn [filter]. destruct (String.eqb (fst e) k) eqn:E; cbn [negb orb filter].
    + exact IHcs.
    + destruct (existsb (String.eqb (fst e)) keys); cbn [negb]; now rewrite IHcs.
Qed.

Lemma sw_activate_filter (cs : CacheStorage) :
  sw_activate cs = filter (fun e => String.eqb (fst e) CACHE_NAME) cs.
Proof.
  unfold sw_activate. rewrite delete_all_filter.
  apply filter_ext_in. intros [n c] Hin. cbn [fst].
  destruct (String.eqb n CACHE_NAME) eqn:En.
  - apply negb_true_iff, not_true_is_false. intros Hex.
    apply existsb_exists in Hex as (k & Hk & Ek).
    apply filter_In in Hk as (_ & Hk).
    apply String.eqb_eq in Ek. subst k. now rewrite En in Hk.
  - apply negb_false_iff, existsb_exists. exists n. split.
    + apply filter_In. split; [| now rewrite En].
      unfold caches_keys. now apply (in_map fst _ (n, c)).
    + apply String.eqb_refl.
Qed.

(** X15: activation deletes every cache whose name is not [CACHE_NAME] and
    keeps the caches of that name as they are, contents and order; what is
    left has no other name, and activating again changes nothing. *)
Theorem sw_activate_keeps_current_cache (cs : CacheStorage) :
  sw_activate cs = filter (fun e => String.eqb (fst e) CACHE_NAME) cs
  /\ (forall name, In name (caches_keys (sw_activate cs)) -> name = CACHE_NAME)
  /\ caches_get CACHE_NAME (sw_activate cs) = caches_get CACHE_NAME cs
  /\ sw_activate (sw_activate cs) = sw_activate cs.
Proof.
  pose proof sw_activate_filter as E.
  split; [apply E |]. split; [| split].
  - intros name Hin. rewrite E in Hin. unfold caches_keys in Hin.
    apply in_map_iff in Hin as ([n c] & <- & Hin).
    apply filter_In in Hin as (_ & Hn). now apply String.eqb_eq in Hn.
  - rewrite E. induction cs as [| [n c] cs IH]; [reflexivity |].
    cbn [filter fst caches_get]. destruct (String.eqb n CACHE_NAME) eqn:En.
    + cbn [caches_get]. now rewrite En.
    + exact IH.
  - rewrite !E. induction cs as [| [n c] cs IH]; [reflexivity |].
    cbn [filter fst]. destruct (String.eqb n CACHE_NAME) eqn:En; [| exact IH].
    cbn [filter fst]. rewrite En. now f_equal.
Qed.

Lemma cache_match_put_same (u : String.string) (r : Response) (c : Cache) :
  cache_match u (cache_put u r c) = Some r.
Proof.
  induction c as [| [v r'] c IH]; cbn [cache_put cache_match].
  - now rewrite String.eqb_refl.
  - destruct (String.eqb v u) eqn:E; cbn [cache_match]; now rewrite E.
Qed.

Lemma cache_match_put_other (u v : String.string) (r : Response) (c : Cache) :
  u <> v -> cache_match u (cache_put v r c) = cache_match u c.
Proof.
  intros Hne. induction c as [| [x r'] c IH]; cbn [cache_put cache_match].
  - destruct (String.eqb v u) eqn:E; [| reflexivity].
    apply String.eqb_eq in E. congruence.
  - destruct (String.eqb x v) eqn:E; cbn [cache_match].
    + apply String.eqb_eq in E. subst x.
      destruct (String.eqb v u) eqn:E'; [| reflexivity].
      apply String.eqb_eq in E'. congruence.
    + destruct (String.eqb x u); [reflexivity | exact IH].
Qed.

(** Storing fetched responses: afterwards the cache answers a stored URL
    with what the network gave and any other URL as before. *)
Lemma cache_match_put_all (net : Network) (rs : list (String.string * Response))
    (c : Cache) (u : String.string) :
  (forall v r, In (v, r) rs -> net v = Some r) ->
  cache_match u (fold_left (fun c ur => cache_put (fst ur) (snd ur) c) rs c)
  = if in_dec String.string_dec u (map fst rs) then net u else cache_match u c.
Proof.
  revert c. induction rs as [| [v r] rs IH]; intros c Hnet; cbn [fold_left map fst snd].
  - now destruct (in_dec String.string_dec u []).
  - rewrite IH by (intros; apply Hnet; now right).
    destruct (in_dec String.string_dec u (map fst rs)) as [Hin | Hout];
      destruct (in_dec String.string_dec u (v :: map fst rs)) as [Hin' | Hout'];
      try reflexivity.
    + exfalso. apply Hout'. now right.
    + destruct Hin' as [-> | Hin']; [| contradiction].
      rewrite cache_match_put_same. symmetry. apply Hnet. now left.
    + apply cache_match_put_other. intros ->. apply Hout'. now left.
Qed.

Lemma fetchAll_spec (net : Network) (urls : list String.string)
    (rs : list (String.string * Response)) :
  fetchAll net urls = Some rs ->
  map fst rs = urls /\ (forall v r, In (v, r) rs -> net v = Some r).
Proof.
  revert rs. induction urls as [| u urls IH]; intros rs H; cbn [fetchAll] in H.
  - injection H as <-. split; [reflexivity | intros v r []].
  - destruct (net u) as [[[|] body |] |] eqn:E; try discriminate.
    destruct (fetchAll net urls) as [rs' |]; [| discriminate].
    injection H as <-. destruct (IH rs' eq_refl) as [Hm Hn].
    split; [cbn; now rewrite Hm |].
    intros v r [Heq | Hin]; [injection Heq as <- <-; exact E | now apply Hn].
Qed.

Lemma fetchAll_fails (net : Network) (urls : list String.string) :
  fetchAll net urls = None <->
  exists u, In u urls /\ forall body, net u <> Some (HttpResponse true body).
Proof.
  induction urls as [| u urls IH]; cbn [fetchAll].
  - split; [discriminate | intros (u & [] & _)].
  - destruct (net u) as [[[|] body |] |] eqn:E.
    + destruct (fetchAll net urls) as [rs |].
      * split; [discriminate |]. intros (v & [-> | Hin] & Hv).
        -- exfalso. now apply (Hv body).
        -- assert (Some rs = None) by (apply IH; now exists v). discriminate.
      * split; [| reflexivity]. intros _.
        destruct (proj1 IH eq_refl) as (v & Hin & Hv). exists v. split; [now right | exact Hv].
    + split; [| reflexivity]. intros _. exists u. split; [now left |]. congruence.
    + split; [| reflexivity]. intros _. exists u. split; [now left |]. congruence.
    + split; [| reflexivity]. intros _. exists u. split; [now left |]. congruence.
Qed.

Lemma caches_get_open (name : String.string) (cs : CacheStorage) :
  caches_get name (caches_open name cs)
  = match caches_get name cs with Some c => Some c | None => Some [] end.
Proof.
  unfold caches_open.
  induction cs as [| [n c] cs IH]; cbn [caches_has caches_get app].
  - now rewrite String.eqb_refl.
  - destruct (String.eqb n name) eqn:E; cbn [orb caches_get]; rewrite ?E; [reflexivity |].
    destruct (caches_has name cs); cbn [caches_get app]; rewrite ?E; exact IH.
Qed.

Lemma caches_get_update (name : String.string) (f : Cache -> Cache) (cs : CacheStorage) :
  caches_get name (update_cache name f cs) = option_map f (caches_get name cs).
Proof.
  induction cs as [| [n c] cs IH]; [reflexivity |].
  cbn [update_cache caches_get]. destruct (String.eqb n name) eqn:E;
    cbn [caches_get option_map]; now rewrite E.
Qed.

Lemma caches_get_other_update (name other : String.string) (f : Cache -> Cache)
    (cs : CacheStorage) :
  other <> name ->
  caches_get other (update_cache name f cs) = caches_get other cs.
Proof.
  intros Hne. induction cs as [| [n c] cs IH]; [reflexivity |].
  cbn [update_cache caches_get]. destruct (String.eqb n name) eqn:E; cbn [caches_get].
  - apply String.eqb_eq in E. subst n.
    destruct (String.eqb name other) eqn:E'; [| reflexivity].
    apply String.eqb_eq in E'. congruence.
  - destruct (String.eqb n other); [reflexivity | exact IH].
Qed.

Lemma caches_get_other_open (name other : String.string) (cs : CacheStorage) :
  other <> name -> caches_get other (caches_open name cs) = caches_get other cs.
Proof.
  intros Hne. unfold caches_open. destruct (caches_has name cs); [reflexivity |].
  induction cs as [| [n c] cs IH]; cbn [app caches_get].
  - destruct (String.eqb name other) eqn:E; [| reflexivity].
    apply String.eqb_eq in E. congruence.
  - destruct (String.eqb n other); [reflexivity | exact IH].
Qed.

(** The cache of the worker after [install], from the one before. *)
Lemma sw_install_cache (net : Network) (cs : CacheStorage) :
  let before := match caches_get CACHE_NAME cs with Some c => c | None => [] end in
  caches_get CACHE_NAME (sw_install net cs)
  = Some (match fetchAll net ASSETS with
          | Some rs => fold_left (fun c ur => cache_put (fst ur) (snd ur) c) rs before
          | None => before
          end).
Proof.
  cbv zeta. unfold sw_install, cache_addAll.
  destruct (fetchAll net ASSETS) as [rs |].
  - rewrite caches_get_update, caches_get_open.
    now destruct (caches_get CACHE_NAME cs).
  - rewrite caches_get_open. now destruct (caches_get CACHE_NAME cs).
Qed.

(** X16: installation is all or nothing, and never fails.  When every asset
    is fetched with an ok response the worker's cache answers each asset
    with the response fetched; when one fetch fails or is not ok, the
    cache keeps exactly what it held before (empty if it is new).  Either
    way every URL that is not an asset and every other cache are as
    before. *)
Theorem sw_install_all_or_nothing (net : Network) (cs : CacheStorage) :
  let before := match caches_get CACHE_NAME cs with Some c => c | None => [] end in
  exists after,
    caches_get CACHE_NAME (sw_install net cs) = Some after
    /\ (assets_reachable net ->
        forall u, In u ASSETS -> cache_match u after = net u)
    /\ (~ assets_reachable net -> after = before)
    /\ (forall u, ~ In u ASSETS -> cache_match u after = cache_match u before)
    /\ (forall other, other <> CACHE_NAME ->
        caches_get other (sw_install net cs) = caches_get other cs).
Proof.
  cbv zeta. pose proof (sw_install_cache net cs) as H. cbv zeta in H.
  set (before := match caches_get CACHE_NAME cs with Some c => c | None => [] end) in *.
  eexists. split; [exact H |].
  destruct (fetchAll net ASSETS) as [rs |] eqn:F.
  - destruct (fetchAll_spec net ASSETS rs F) as [Hm Hn].
    split; [| split; [| split]].
    + intros _ u Hu. rewrite (cache_match_put_all net rs before u Hn), Hm.
      destruct (in_dec String.string_dec u ASSETS); [reflexivity | contradiction].
    + intros Hnot. exfalso. apply Hnot. intros u Hu.
      assert (Hin : In u (map fst rs)) by now rewrite Hm.
      apply in_map_iff in Hin as ([v r] & <- & Hin). cbn [fst].
      pose proof (Hn v r Hin) as Hv.
      clear - F Hin Hv. revert rs F Hin.
      induction ASSETS as [| a l IH]; intros rs F Hin; cbn [fetchAll] in F.
      * injection F as <-. destruct Hin.
      * destruct (net a) as [[[|] body |] |] eqn:E; try discriminate.
        destruct (fetchAll net l) as [rs' |] eqn:F'; [| discriminate].
        injection F as <-. destruct Hin as [Heq | Hin].
        -- injection Heq as <- <-. now exists body.
        -- now apply (IH rs').
    + intros u Hu. rewrite (cache_match_put_all net rs before u Hn), Hm.
      destruct (in_dec String.string_dec u ASSETS); [contradiction | reflexivity].
    + intros other Hne. unfold sw_install, cache_addAll. rewrite F.
      rewrite caches_get_other_update, caches_get_other_open by assumption.
      reflexivity.
  - split; [| split; [| split]].
    + intros Hall. exfalso.
      destruct (proj1 (fetchAll_fails net ASSETS) F) as (u & Hu & Hbad).
      destruct (Hall u Hu) as (body & Hb). now apply (Hbad body).
    + reflexivity.
    + reflexivity.
    + intros other Hne. unfold sw_install, cache_addAll. rewrite F.
      now apply caches_get_other_open.
Qed.

Lemma caches_match_current (u : String.string) (cs : CacheStorage) (c : Cache)
    (r : Response) :
  caches_get CACHE_NAME cs = Some c ->
  cache_match u c = Some r ->
  caches_match u (filter (fun e => String.eqb (fst e) CACHE_NAME) cs) = Some r.
Proof.
  intros Hget Hm. induction cs as [| [n c'] cs IH]; [discriminate |].
  cbn [caches_get] in Hget. cbn [filter fst].
  destruct (String.eqb n CACHE_NAME) eqn:E.
  - injection Hget as ->. cbn [caches_match]. now rewrite Hm.
  - now apply IH.
Qed.

(** X17: once the worker has been installed with every asset fetched and
    has been activated, a GET for an asset is answered with the response
    fetched at installation, whatever the network does later (offline
    included) and whatever older caches the storage held before. *)
Theorem assets_served_from_cache
    (net later : Network) (cs : CacheStorage) (u : String.string) :
  assets_reachable net ->
  In u ASSETS ->
  sw_fetch "GET" u later (sw_activate (sw_install net cs)) = net u.
Proof.
  intros Hall Hu.
  rewrite sw_activate_filter.
  pose proof (sw_install_cache net cs) as Hc. cbv zeta in Hc.
  destruct (fetchAll net ASSETS) as [rs |] eqn:F.
  - destruct (fetchAll_spec net ASSETS rs F) as [Hm Hn].
    destruct (Hall u Hu) as (body & Hb).
    unfold sw_fetch. cbn [String.eqb Ascii.eqb Bool.eqb negb andb].
    rewrite (caches_match_current u _ _ (HttpResponse true body) Hc); [now rewrite Hb |].
    rewrite (cache_match_put_all net rs _ u Hn), Hm.
    destruct (in_dec String.string_dec u ASSETS); [exact Hb | contradiction].
  - exfalso.
    destruct (proj1 (fetchAll_fails net ASSETS) F) as (v & Hv & Hbad).
    destruct (Hall v Hv) as (body & Hb). now apply (Hbad body).
Qed.

Lemma assets_served_from_cache_witness :
  sw_fetch "GET" "./app.js" offline (sw_activate (sw_install online oldStorage))
  = online "./app.js"%string.
Proof.
  apply (assets_served_from_cache online offline oldStorage "./app.js").
  - intros u _. now exists u.
  - cbn. tauto.
Defined.

(** ** Install hint *)

Lemma getItem_setItem (key value : String.string) (s : Storage) :
  getItem key (setItem key value s) = Some value.
Proof.
  induction s as [| [k v] s IH]; cbn [setItem getItem].
  - now rewrite String.eqb_refl.
  - destruct (String.eqb k key) eqn:E; cbn [getItem]; now rewrite E.
Qed.

(** X18: the dismissal of the install hint is remembered.  After the dismiss
    button or the [appinstalled] event (on a page where the hint was set
    up), the hint is hidden, and on every later start over that storage
    [initInstallHint] leaves a hidden hint hidden; a start that finds no
    dismissal stored shows the hint unless the app runs standalone. *)
Theorem install_hint_dismissal_persists (p q : HintPage) (elements mq ios : bool) :
  hintListeners p = true ->
  let dismissed := dismissInstallHint_click p in
  installHintHidden dismissed = true
  /\ appinstalled p = dismissed
  /\ (localStorage q = localStorage dismissed ->
      installHintHidden q = true ->
      installHintHidden (initInstallHint elements mq ios q) = true)
  /\ (getItem "a2hsHintDismissed" (localStorage q) = None ->
      installHintHidden (initInstallHint true mq ios q)
      = isStandaloneDisplayMode mq ios).
Proof.
  intros Hl. cbv zeta. unfold dismissInstallHint_click, appinstalled. rewrite Hl.
  cbn [installHintHidden localStorage]. repeat split.
  - intros Hs Hq. unfold initInstallHint. rewrite Hs, getItem_setItem.
    destruct elements; cbn [negb]; [| exact Hq].
    destruct (isStandaloneDisplayMode mq ios); [reflexivity |].
    cbn. exact Hq.
  - intros Hn. unfold initInstallHint. rewrite Hn. cbn [negb].
    now destruct (isStandaloneDisplayMode mq ios).
Qed.

Lemma install_hint_dismissal_persists_witness :
  let p := initInstallHint true false false (freshPage []) in
  let q := freshPage (localStorage (dismissInstallHint_click p)) in
  let dismissed := dismissInstallHint_click p in
  installHintHidden dismissed = true
  /\ appinstalled p = dismissed
  /\ (localStorage q = localStorage dismissed ->
      installHintHidden q = true ->
      installHintHidden (initInstallHint true false false q) = true)
  /\ (getItem "a2hsHintDismissed" (localStorage q) = None ->
      installHintHidden (initInstallHint true false false q)
      = isStandaloneDisplayMode false false).
Proof.
  apply (install_hint_dismissal_persists
           (initInstallHint true false false (freshPage []))
           (freshPage (localStorage
                         (dismissInstallHint_click
                            (initInstallHint true false false (freshPage [])))))
           true false false).
  reflexivity.
Defined.

(** ** Changing and loading the image *)


(** X20: when an image is exposed (by the [onload] of the upload or of its
    downscaled copy) the viewport is read afresh from the window and the
    overlay is centred on it at scale 1 with the default filters, also
    where earlier resizes were ignored because the camera was off; the lock
    and the camera are left as they are. *)
Theorem image_load_recentres_on_window (finalImg : Image) (w : World) :
  let w' := finalImg_onload finalImg w in
  overlayImage (rendering w') = Some finalImg
  /\ overlayReady (rendering w') = true
  /\ hasImage (appState w') = true
  /\ viewportWidth (rendering w') = Fin (innerWidth (window w))
  /\ viewportHeight (rendering w') = Fin (innerHeight (window w))
  /\ transform w' = (Fin 1, Fin (innerWidth (window w) / 2),
                            Fin (innerHeight (window w) / 2))
  /\ filterState w' = defaultFilters
  /\ fxState w' = defaultFx
  /\ locked (overlayState w') = locked (overlayState w)
  /\ cameraActive (appState w') = cameraActive (appState w)
  /\ gesture w' = gesture w.
Proof.
  destruct w as [win a o f fx r g].
  destruct win, a, o, f, fx, r as [d vw vh cw ch img ready].
  cbv zeta. unfold finalImg_onload, exposeImage, transform.
  cbn -[div mul to_long or_else]. rewrite !half_Fin. repeat split.
Qed.
